(** * imohash: sampled file hashing on top of a 128-bit mixing primitive

    A shallow embedding of [imohash.go] and a verification of its
    one-shot (sampling) and incremental ([hash.Hash]) entry points.

    Conventions of the embedding:
    - Go's [int], [int64] are [Z]; arithmetic that Go performs on 64-bit
      values is written with its wrap-around ([int64], [uint64]);
    - a [[]byte] is a [list byte]; an in-place update of a slice is a new list
      of the same length;
    - a run-time panic (index out of range, a [make] that is negative or
      beyond the allocation limit) is [Panic];
    - the packages the file imports ([io], [bytes], [encoding/binary],
      [os], [murmur3]) are modelled just as far as [imohash.go] calls them. *)

From Stdlib Require Import Strings.String.
From Stdlib Require Import ZArith List Lia Bool.
From Stdlib Require Import Init.Byte.
From Stdlib Require Strings.Byte.
Import ListNotations.
Local Open Scope Z_scope.

Set Implicit Arguments.

(** ** Go integers and bytes *)

Definition MaxInt64 : Z := 2 ^ 63 - 1.
Definition MinInt64 : Z := - 2 ^ 63.

(** The result of 64-bit signed arithmetic: two's complement wrap-around.
    A conversion between [int] and [int64] keeps the value and is left
    out of the embedding. *)
Definition int64 (z : Z) : Z := (z + 2 ^ 63) mod 2 ^ 64 - 2 ^ 63.

(** Conversion to [uint64]. *)
Definition uint64 (z : Z) : Z := z mod 2 ^ 64.

Arguments int64 : simpl never.
Arguments uint64 : simpl never.
Arguments MaxInt64 : simpl never.
Arguments MinInt64 : simpl never.

(** [len(s)] as a Go [int]. *)
Definition len {A : Type} (s : list A) : Z := Z.of_nat (length s).

(** [byte(x)]: the low eight bits of an unsigned value. *)
Definition byte_of_Z (x : Z) : byte :=
  match Byte.of_N (Z.to_N (Z.land x 255)) with
  | Some b => b
  | None => x00
  end.

Definition Z_of_byte (b : byte) : Z := Z.of_N (Byte.to_N b).

(** ** Panics *)

Inductive result (A : Type) : Type :=
| Ok (a : A)
| Panic.
Arguments Panic {A}.

Definition bind {A B : Type} (m : result A) (k : A -> result B) : result B :=
  match m with
  | Ok a => k a
  | Panic => Panic
  end.

Notation "x <- m ;; k" := (bind m (fun x => k))
  (at level 61, m at next level, right associativity).
Notation "' p <- m ;; k" := (bind m (fun x => let 'p := x in k))
  (at level 61, p pattern, m at next level, right associativity).

(** ** Go built-ins on slices *)

(** The allocation limit of Go's runtime ([maxAlloc]): [1 << 48] bytes on
    linux/amd64. *)
Definition maxAlloc : Z := 2 ^ 48.

Arguments maxAlloc : simpl never.

(** [make([]byte, n)]: panics ([makeslice: len out of range]) when [n] is
    negative or more than the allocation limit; otherwise [n] zero bytes.
    (Running out of memory below the limit is a fatal error of the
    process that depends on the machine; it is not part of the model.) *)
Definition make (n : Z) : result (list byte) :=
  if (n <? 0) || (maxAlloc <? n) then Panic else Ok (repeat x00 (Z.to_nat n)).

(** [copy(dst, src)]: overwrites the first [min(len(dst), len(src))]
    elements of [dst]; returns the updated [dst]. *)
Definition copy (dst src : list byte) : list byte :=
  let n := Nat.min (length dst) (length src) in
  firstn n src ++ skipn n dst.

(** The bytes [s[off : off+n]] of a slice, clipped to its end. *)
Definition window (s : list byte) (off : Z) (n : Z) : list byte :=
  firstn (Z.to_nat n) (skipn (Z.to_nat off) s).

(** ** Errors *)

Inductive error : Type :=
| EOF                      (* io.EOF *)
| errWhence                (* io: Seek: invalid whence *)
| errOffset                (* io: Seek: invalid offset *)
| errNegativeOffset        (* bytes.Reader.ReadAt: negative offset *)
| PathError (op path : string). (* *os.PathError *)

(** ** io.ReaderAt

    Modelled from the spec: the byte source is consumed through Go's
    [io.ReaderAt] (spec, section 6, [read(offset, length) -> bytes]); the
    interface is not part of the repository.  [ReadAt n off] stands for
    [ReadAt(p, off)] with [len(p) = n]: it returns the bytes that were
    read, which overwrite the front of [p], and the error.  The two
    implementations the program uses, [bytes.Reader] and [os.File], leave
    [p] beyond the bytes read as it was. *)

Record ReaderAt : Type := { ReadAt : nat -> Z -> list byte * option error }.

(** Modelled from the spec: [bytes.NewReader(s)] of Go's standard library,
    seen through [ReadAt]: a negative offset is an error, an offset at or
    past the end is [io.EOF], otherwise [copy(b, s[off:])], with [io.EOF]
    when fewer than [len(b)] bytes were there. *)
Definition bytes_NewReader (s : list byte) : ReaderAt :=
  {| ReadAt := fun n off =>
       if off <? 0 then ([], Some errNegativeOffset)
       else if len s <=? off then ([], Some EOF)
       else
         let data := firstn n (skipn (Z.to_nat off) s) in
         (data, if (length data <? n)%nat then Some EOF else None) |}.

(** ** io.SectionReader

    Modelled from the spec: [io.SectionReader] of Go's standard library,
    the random-access byte source of the one-shot mode ([size()], seek and
    read; spec, sections 1 and 6).  A section of an underlying [ReaderAt]
    between [base] and [limit], with a current offset [off]. *)

Module SectionReader.

Record t : Type := mk { r : ReaderAt; base : Z; off : Z; limit : Z }.

Definition Size (s : t) : Z := int64 (limit s - base s).

(** [Read(p)]: returns the reader, the updated [p], [n] and [err]. *)
Definition Read (s : t) (p : list byte) : t * list byte * Z * option error :=
  if limit s <=? off s then (s, p, 0, Some EOF)
  else
    let max := int64 (limit s - off s) in
    let k := if max <? len p then max else len p in
    let '(data, err) := ReadAt (r s) (Z.to_nat k) (off s) in
    let data := firstn (Z.to_nat k) data in
    let n := len data in
    (mk (r s) (base s) (int64 (off s + n)) (limit s),
     data ++ skipn (length data) p, n, err).

(** [Seek(offset, whence)]: returns the reader, the new position and [err]. *)
Definition Seek (s : t) (offset : Z) (whence : Z) : t * Z * option error :=
  let target :=
    if whence =? 0 then Some (int64 (offset + base s))
    else if whence =? 1 then Some (int64 (offset + off s))
    else if whence =? 2 then Some (int64 (offset + limit s))
    else None in
  match target with
  | None => (s, 0, Some errWhence)
  | Some offset =>
      if offset <? base s then (s, 0, Some errOffset)
      else (mk (r s) (base s) offset (limit s), int64 (offset - base s), None)
  end.

End SectionReader.

(** [io.NewSectionReader(r, off, n)]. *)
Definition NewSectionReader (r : ReaderAt) (off n : Z) : SectionReader.t :=
  let remaining :=
    if off <=? int64 (MaxInt64 - n) then int64 (n + off) else MaxInt64 in
  SectionReader.mk r off off remaining.

(** ** encoding/binary *)

(** Modelled from the spec: [binary.PutUvarint(buf, x)] of Go's standard
    library (spec, section 6, variable-length integer encoder): an
    unsigned integer in 1 to 10 bytes, written into the caller's buffer
    from offset 0, the rest of the buffer untouched.  It writes seven
    bits per byte, least
    significant group first, with the top bit set on every byte but the
    last; returns the updated buffer and the number of bytes written.  The
    recursion follows the index [i] through [buf]; running off the end of
    [buf] is Go's index-out-of-range panic. *)
Fixpoint PutUvarint (buf : list byte) (x : Z) : result (list byte * Z) :=
  match buf with
  | [] => Panic
  | b :: rest =>
      if 128 <=? x then
        '(rest', n) <- PutUvarint rest (Z.shiftr x 7) ;;
        Ok (byte_of_Z (Z.lor (Z.land x 255) 128) :: rest', n + 1)
      else Ok (byte_of_Z x :: rest, 1)
  end.

Definition MaxVarintLen64 : nat := 10.

(** The encoding on its own, as a byte string: at most [fuel] bytes. *)
Fixpoint uvarint_bytes (fuel : nat) (x : Z) : list byte :=
  match fuel with
  | O => []
  | S fuel' =>
      if 128 <=? x
      then byte_of_Z (Z.lor (Z.land x 255) 128) :: uvarint_bytes fuel' (Z.shiftr x 7)
      else [byte_of_Z x]
  end.

(** The variable-length encoding of an unsigned 64-bit value. *)
Definition uvarint (x : Z) : list byte := uvarint_bytes MaxVarintLen64 x.

(** ** murmur3.Hash128

    Modelled from the spec: the mixing primitive is the external package
    [github.com/spaolacci/murmur3], consumed through [New128], [Write],
    [Sum] and [Reset] (spec, section 6).  It is kept abstract: a type of
    states with the four operations, and the part of the [hash.Hash]
    contract the engine relies on.  [hSum] returns the state it leaves
    behind, so that its not changing the state is a law and not a
    by-product of the typing. *)
Class Hash128 : Type := {
  hstate : Type;
  New128 : hstate;
  hWrite : hstate -> list byte -> hstate;
  hSum : hstate -> list byte -> hstate * list byte;
  hReset : hstate -> hstate;
  (** [Reset] restores the state of a new hasher. *)
  hReset_New128 : forall d, hReset d = New128;
  (** [Sum] does not change the underlying state, *)
  hSum_state : forall d b, fst (hSum d b) = d;
  (** and appends the 16 bytes of the current digest to [b]. *)
  hSum_append : forall d b,
    snd (hSum d b) = b ++ snd (hSum d []) /\ length (snd (hSum d [])) = 16%nat
}.

(** ** os: files

    Modelled from the spec: operating-system file access (open, stat,
    read; spec, section 1).  An open file is what [SumFile] asks of it:
    [Stat] (the size, or an error) and [ReadAt].  [os.Open] is a function
    of the file name that gives a file or an error. *)
Record File : Type := { Stat : Z + error; FileReaderAt : ReaderAt }.

Definition FileSystem : Type := string -> File + error.

(** ** imohash.go *)

Definition Size : Z := 16.

(** Files smaller than 128kb will be hashed in their entirety. *)
Definition SampleThreshhold : Z := 128 * 1024.
Definition SampleSize : Z := 16 * 1024.

Definition emptyArray : list byte := repeat x00 (Z.to_nat Size).

Section Engine.

Context {H : Hash128}.

Record ImoHash : Type := mkImoHash {
  hasher : hstate;
  sampleSize : Z;
  sampleThreshold : Z;
  bytesAdded : Z
}.

Definition with_hasher (imo : ImoHash) (h : hstate) : ImoHash :=
  mkImoHash h (sampleSize imo) (sampleThreshold imo) (bytesAdded imo).

(** [NewCustom] returns a new ImoHash using the provided sample size and
    sample threshhold values. *)
Definition NewCustom (sampleSize sampleThreshold : Z) : ImoHash :=
  mkImoHash New128 sampleSize sampleThreshold 0.

(** [New] returns a new ImoHash using the default values. *)
Definition New : ImoHash := NewCustom SampleSize SampleThreshhold.

(** [hashCore] hashes a SectionReader using the ImoHash parameters.  The
    results of [Read] and [Seek] other than their effect on [f] and on
    the buffer are dropped, as in the source.  Returns the engine, the
    reader and the [[Size]byte] result. *)
Definition hashCore (imo : ImoHash) (f : SectionReader.t)
  : result (ImoHash * SectionReader.t * list byte) :=
  let result0 := repeat x00 (Z.to_nat Size) in
  let h := hReset (hasher imo) in
  '(h, f) <-
    (if (SectionReader.Size f <? sampleThreshold imo)
        || (sampleSize imo <? 1)
     then
       buffer <- make (SectionReader.Size f) ;;
       let '(f, buffer, _, _) := SectionReader.Read f buffer in
       let h := hWrite h buffer in
       Ok (h, f)
     else
       buffer <- make (sampleSize imo) ;;
       let '(f, buffer, _, _) := SectionReader.Read f buffer in
       let h := hWrite h buffer in
       let '(f, _, _) := SectionReader.Seek f (SectionReader.Size f ÷ 2) 0 in
       let '(f, buffer, _, _) := SectionReader.Read f buffer in
       let h := hWrite h buffer in
       let '(f, _, _) := SectionReader.Seek f (int64 (- sampleSize imo)) 2 in
       let '(f, buffer, _, _) := SectionReader.Read f buffer in
       let h := hWrite h buffer in
       Ok (h, f)) ;;
  let '(h, hash) := hSum h [] in
  '(hash, _) <- PutUvarint hash (uint64 (SectionReader.Size f)) ;;
  Ok (with_hasher imo h, f, copy result0 hash).

(** [Sum128] hashes a byte slice using default sample parameters. *)
Definition Sum128 (data : list byte) : result (list byte) :=
  let imo := New in
  let sr := NewSectionReader (bytes_NewReader data) 0 (len data) in
  '(_, _, id) <- hashCore imo sr ;;
  Ok id.

(** The methods of [*ImoHash]. *)

(** [SumFile] hashes a file using the ImoHash parameters.  Returns the
    engine and Go's pair of results.  (The deferred [f.Close()] has no
    part in either.) *)
Definition ImoHash_SumFile (fs : FileSystem) (imo : ImoHash) (filename : string)
  : result (ImoHash * (list byte * option error)) :=
  match fs filename with
  | inr err => Ok (imo, (emptyArray, Some err))
  | inl f =>
      match Stat f with
      | inr err => Ok (imo, (emptyArray, Some err))
      | inl fi_Size =>
          let sr := NewSectionReader (FileReaderAt f) 0 fi_Size in
          '(imo, _, id) <- hashCore imo sr ;;
          Ok (imo, (id, None))
      end
  end.

(** [SumFile] hashes a file using default sample parameters. *)
Definition SumFile (fs : FileSystem) (filename : string)
  : result (list byte * option error) :=
  let imo := New in
  '(_, res) <- ImoHash_SumFile fs imo filename ;;
  Ok res.

(** [Sum] appends the current hash to data and returns the resulting
    slice.  Returns the engine as well. *)
Definition ImoHash_Sum (imo : ImoHash) (data : list byte)
  : result (ImoHash * list byte) :=
  let '(h, hash) := hSum (hasher imo) [] in
  '(hash, _) <- PutUvarint hash (uint64 (bytesAdded imo)) ;;
  Ok (with_hasher imo h, data ++ hash).

(** [Write] adds more data to the running hash.  Returns the engine,
    [n] and [err]. *)
Definition ImoHash_Write (imo : ImoHash) (data : list byte)
  : ImoHash * Z * option error :=
  let h := hWrite (hasher imo) data in
  (mkImoHash h (sampleSize imo) (sampleThreshold imo)
     (int64 (bytesAdded imo + len data)),
   len data, None).

Definition ImoHash_BlockSize (imo : ImoHash) : Z := 1.

(** [Reset] resets the Hash to its initial state. *)
Definition ImoHash_Reset (imo : ImoHash) : ImoHash :=
  mkImoHash (hReset (hasher imo)) (sampleSize imo) (sampleThreshold imo) 0.

(** [Size] returns the number of bytes Sum will return. *)
Definition ImoHash_Size (imo : ImoHash) : Z := Size.

End Engine.

Arguments ImoHash H : clear implicits.

(** ** A recording hasher

    An instance of [Hash128] whose state is the list of the [Write] calls
    since the last [Reset], in order.  It makes the sequence of writes of a
    run observable, and lets the engine be evaluated on concrete inputs; its
    digest is a polynomial checksum of the byte stream, standing in for
    murmur3's. *)
Definition checksum128 (stream : list byte) : list byte :=
  let acc :=
    fold_left (fun a b => (a * 257 + Z_of_byte b + 1) mod 2 ^ 128) stream
      (2 ^ 127 - 1) in
  map (fun i => byte_of_Z (Z.shiftr acc (8 * Z.of_nat i))) (seq 0 16).

Definition Recorder : Hash128 := {|
  hstate := list (list byte);
  New128 := [];
  hWrite := fun d b => d ++ [b];
  hSum := fun d b => (d, b ++ checksum128 (concat d));
  hReset := fun _ => [];
  hReset_New128 := fun _ => eq_refl;
  hSum_state := fun _ _ => eq_refl;
  hSum_append := fun _ _ => conj eq_refl eq_refl
|}.

(** The bytes [lo, lo+1, ..., lo+n-1] (mod 256), for concrete inputs. *)
Definition ramp (lo : Z) (n : nat) : list byte :=
  map (fun i => byte_of_Z (lo + Z.of_nat i)) (seq 0 n).

(** ** Vocabulary of the specification *)

(** A reader serves the content [B]: a read that lies inside [B] returns
    those bytes of [B].  [bytes.Reader] does, and so does a file that
    reads without failure. *)
Definition serves (r : ReaderAt) (B : list byte) : Prop :=
  forall (n : nat) (off : Z),
    0 <= off -> off + Z.of_nat n <= len B ->
    fst (ReadAt r n off) = window B off (Z.of_nat n).

(** The length of the buffer that [hashCore] asks [make] for, on a source
    of size [S]: the whole source on the whole-content path, one sample on
    the sampling path. *)
Definition buffer_len (ss st S : Z) : Z :=
  if (S <? st) || (ss <? 1) then S else ss.

(** The raw 16-byte digest of a hasher state: [Sum(nil)]. *)
Definition raw_digest {H : Hash128} (h : hstate) : list byte := snd (hSum h []).

(** A 16-byte digest with its leading bytes overwritten by the encoding of
    [x]; the bytes behind the encoding stay. *)
Definition embed (x : Z) (digest : list byte) : list byte :=
  uvarint x ++ skipn (length (uvarint x)) digest.

(** The identifier of a run's result, when it did not panic. *)
Definition identifier {H : Hash128}
  (res : result (ImoHash H * SectionReader.t * list byte)) : option (list byte) :=
  match res with
  | Ok (_, _, id) => Some id
  | Panic => None
  end.

(** The hasher state a run leaves in the engine. *)
Definition final_hasher {H : Hash128}
  (res : result (ImoHash H * SectionReader.t * list byte)) : option hstate :=
  match res with
  | Ok (imo, _, _) => Some (hasher imo)
  | Panic => None
  end.

(** The identifier that unconditional whole-content mixing gives a buffer
    (spec, section 4.1, steps 2 and 4 to 6): all of [B] mixed as one write
    into a fresh primitive, and the length of [B] embedded in the digest. *)
Definition whole_content_identifier {H : Hash128} (B : list byte) : list byte :=
  embed (len B) (raw_digest (hWrite New128 B)).


(** A file that can be opened and whose size is known, but whose every
    read fails. *)
Definition failingReader : ReaderAt :=
  {| ReadAt := fun _ _ => ([], Some (PathError "read" "disk.img")) |}.

Definition failingFile : File :=
  {| Stat := inl 4; FileReaderAt := failingReader |}.

Definition failingFS : FileSystem := fun _ => inl failingFile.

(** The claim that a failed read is surfaced, for one file name: when the
    file opens, its size is known and the first read of the run fails,
    [SumFile] returns an error and no digest. *)
Definition surfaces_read_failure {H : Hash128} (fs : FileSystem) (name : string)
  : Prop :=
  forall (f : File) (n : Z) (e : error),
    fs name = inl f -> Stat f = inl n ->
    snd (ReadAt (FileReaderAt f) (Z.to_nat n) 0) = Some e ->
    exists e', SumFile fs name = Ok (emptyArray, Some e').

(** The claim that the sampling path mixes the three windows of the
    source, each of [sampleSize] bytes, as three writes in this order. *)
Definition three_windows_mixed {H : Hash128}
  (ss st : Z) (r : ReaderAt) (B : list byte) : Prop :=
  final_hasher (hashCore (NewCustom ss st) (NewSectionReader r 0 (len B)))
  = Some (hWrite (hWrite (hWrite New128 (window B 0 ss))
                    (window B (len B / 2) ss))
            (window B (len B - ss) ss))
  /\ len (window B 0 ss) = ss
  /\ len (window B (len B / 2) ss) = ss
  /\ len (window B (len B - ss) ss) = ss.



(** What a read into the buffer [p] at offset [off] leaves in [p], on a
    source that serves [B]: the bytes of [B] from [off] on, at most
    [len(p)] of them, and behind them what [p] held before. *)
Definition overwrite (B : list byte) (off : Z) (p : list byte) : list byte :=
  let data := window B off (len p) in
  data ++ skipn (length data) p.

(** [Write] called once for each of the given chunks, in a row; returns the
    engine and the [(n, err)] of each call. *)
Fixpoint Write_each {H : Hash128} (imo : ImoHash H) (chunks : list (list byte))
  : ImoHash H * list (Z * option error) :=
  match chunks with
  | [] => (imo, [])
  | c :: cs =>
      let '(imo1, n, err) := ImoHash_Write imo c in
      let '(imo2, outs) := Write_each imo1 cs in
      (imo2, (n, err) :: outs)
  end.

(** A streaming hasher: its state is the byte stream written since the
    last [Reset], so that two writes in a row are one write of the two
    chunks joined (as murmur3 behaves); the digest is the same stand-in
    checksum as the recording hasher's. *)
Definition Streamer : Hash128 := {|
  hstate := list byte;
  New128 := [];
  hWrite := fun d b => d ++ b;
  hSum := fun d b => (d, b ++ checksum128 d);
  hReset := fun _ => [];
  hReset_New128 := fun _ => eq_refl;
  hSum_state := fun _ _ => eq_refl;
  hSum_append := fun _ _ => conj eq_refl eq_refl
|}.

(** A file system with one healthy file, of the nine bytes [1..9]. *)
Definition nineBytesFS : FileSystem :=
  fun _ => inl {| Stat := inl 9; FileReaderAt := bytes_NewReader (ramp 1 9) |}.

(** A reader that delivers no byte, whatever is asked of it: as when every
    read fails at once. *)
Definition silent (r : ReaderAt) : Prop :=
  forall (n : nat) (off : Z), fst (ReadAt r n off) = [].

(** * Verification *)

Unset Implicit Arguments.

(** ** 64-bit arithmetic *)

Lemma int64_id (z : Z) : MinInt64 <= z <= MaxInt64 -> int64 z = z.
Proof.
  unfold MinInt64, MaxInt64, int64. intros Hz.
  rewrite Z.mod_small; lia.
Qed.

Lemma int64_range (z : Z) : MinInt64 <= int64 z <= MaxInt64.
Proof.
  unfold MinInt64, MaxInt64, int64.
  pose proof (Z.mod_pos_bound (z + 2 ^ 63) (2 ^ 64) ltac:(lia)). lia.
Qed.

Lemma uint64_range (z : Z) : 0 <= uint64 z < 2 ^ 64.
Proof. unfold uint64. apply Z.mod_pos_bound. lia. Qed.

Lemma uint64_id (z : Z) : 0 <= z <= MaxInt64 -> uint64 z = z.
Proof.
  unfold MaxInt64, uint64. intros Hz. apply Z.mod_small. lia.
Qed.

Lemma len_nonneg {A : Type} (s : list A) : 0 <= len s.
Proof. unfold len. lia. Qed.

Lemma len_app {A : Type} (s t : list A) : len (s ++ t) = len s + len t.
Proof. unfold len. rewrite length_app. lia. Qed.

Lemma len_repeat (b : byte) (n : Z) : 0 <= n -> len (repeat b (Z.to_nat n)) = n.
Proof. intros Hn. unfold len. rewrite repeat_length. lia. Qed.

(** ** Allocation *)

Lemma make_ok (n : Z) :
  0 <= n <= maxAlloc -> make n = Ok (repeat x00 (Z.to_nat n)).
Proof.
  intros Hn. unfold make.
  replace ((n <? 0) || (maxAlloc <? n)) with false; [reflexivity|].
  symmetry. apply orb_false_iff. rewrite !Z.ltb_ge. lia.
Qed.

Lemma make_panics (n : Z) : n < 0 \/ maxAlloc < n -> make n = Panic.
Proof.
  intros Hn. unfold make.
  replace ((n <? 0) || (maxAlloc <? n)) with true; [reflexivity|].
  symmetry. apply orb_true_iff. rewrite !Z.ltb_lt. exact Hn.
Qed.

Lemma maxAlloc_int64 : 0 < maxAlloc < MaxInt64.
Proof. unfold maxAlloc, MaxInt64. lia. Qed.

(** ** The variable-length encoding *)

Lemma shiftr7_lt (x : Z) (k : nat) :
  x < 2 ^ (7 * Z.of_nat (S k)) -> Z.shiftr x 7 < 2 ^ (7 * Z.of_nat k).
Proof.
  intros Hx. rewrite Z.shiftr_div_pow2 by lia.
  apply Z.div_lt_upper_bound; [lia|].
  rewrite <- Z.pow_add_r by lia.
  replace (7 + 7 * Z.of_nat k) with (7 * Z.of_nat (S k)) by lia. exact Hx.
Qed.

(** The encoding of a value below [2^(7k)] takes between 1 and [k] bytes. *)
Lemma uvarint_bytes_length (k : nat) : forall (fuel : nat) (x : Z),
  (0 < k <= fuel)%nat -> x < 2 ^ (7 * Z.of_nat k) ->
  (1 <= length (uvarint_bytes fuel x) <= k)%nat.
Proof.
  induction k as [|k IH]; intros fuel x [Hk Hf] Hx; [lia|].
  destruct fuel as [|fuel]; [lia|]. simpl.
  destruct (128 <=? x) eqn:E; simpl; [|lia].
  apply Z.leb_le in E.
  destruct k as [|k].
  - change (2 ^ (7 * Z.of_nat 1)) with 128 in Hx. lia.
  - specialize (IH fuel (Z.shiftr x 7) ltac:(lia) (shiftr7_lt _ _ Hx)). lia.
Qed.

(** [PutUvarint] writes [uvarint_bytes] over the front of the buffer and
    leaves the rest of it as it was, provided the buffer is long enough. *)
Lemma PutUvarint_spec (fuel : nat) : forall (buf : list byte) (x : Z),
  (0 < fuel <= length buf)%nat -> x < 2 ^ (7 * Z.of_nat fuel) ->
  PutUvarint buf x =
  Ok (uvarint_bytes fuel x ++ skipn (length (uvarint_bytes fuel x)) buf,
      len (uvarint_bytes fuel x)).
Proof.
  induction fuel as [|fuel IH]; intros buf x [Hf Hb] Hx; [lia|].
  destruct buf as [|b rest]; simpl in Hb; [lia|]. simpl.
  destruct (128 <=? x) eqn:E; [|reflexivity].
  apply Z.leb_le in E.
  destruct fuel as [|fuel].
  - change (2 ^ (7 * Z.of_nat 1)) with 128 in Hx. lia.
  - rewrite (IH rest (Z.shiftr x 7)) by (try apply shiftr7_lt; auto; lia).
    simpl. unfold len. simpl length. do 3 f_equal. lia.
Qed.

Lemma uvarint_length (x : Z) :
  0 <= x < 2 ^ 64 -> (1 <= length (uvarint x) <= 10)%nat.
Proof.
  intros Hx. unfold uvarint, MaxVarintLen64.
  apply uvarint_bytes_length; [lia|].
  change (2 ^ (7 * Z.of_nat 10)) with (2 ^ 64 * 64). lia.
Qed.

(** A size that fits [int64] is encoded in at most nine bytes. *)
Lemma uvarint_length_int64 (x : Z) :
  0 <= x <= MaxInt64 -> (1 <= length (uvarint x) <= 9)%nat.
Proof.
  intros Hx. unfold uvarint, MaxVarintLen64, MaxInt64 in *.
  apply uvarint_bytes_length; [lia|].
  change (2 ^ (7 * Z.of_nat 9)) with (2 ^ 63). lia.
Qed.

(** On a 16-byte digest [PutUvarint] cannot panic. *)
Lemma PutUvarint_digest (hash : list byte) (x : Z) :
  length hash = 16%nat -> 0 <= x < 2 ^ 64 ->
  PutUvarint hash x =
  Ok (uvarint x ++ skipn (length (uvarint x)) hash, len (uvarint x)).
Proof.
  intros Hl Hx. unfold uvarint, MaxVarintLen64.
  apply PutUvarint_spec; [lia|].
  change (2 ^ (7 * Z.of_nat 10)) with (2 ^ 64 * 64). lia.
Qed.

Lemma overwrite_length (enc hash : list byte) :
  (length enc <= length hash)%nat ->
  length (enc ++ skipn (length enc) hash) = length hash.
Proof. intros Hl. rewrite length_app, length_skipn. lia. Qed.

Lemma copy_full (dst src : list byte) :
  length dst = length src -> copy dst src = src.
Proof.
  intros Hl. unfold copy. rewrite Hl, Nat.min_id, firstn_all.
  rewrite skipn_all2 by lia. apply app_nil_r.
Qed.

(** ** io.SectionReader *)

Lemma window_length (B : list byte) (off n : Z) :
  0 <= off -> 0 <= n -> off + n <= len B -> len (window B off n) = n.
Proof.
  unfold window, len. intros Ho Hn Hb.
  rewrite length_firstn, length_skipn. lia.
Qed.

Lemma bytes_NewReader_serves (B : list byte) : serves (bytes_NewReader B) B.
Proof.
  intros n off Ho Hb. unfold window. simpl.
  destruct (off <? 0) eqn:E1; [apply Z.ltb_lt in E1; lia|].
  destruct (len B <=? off) eqn:E2; simpl.
  - apply Z.leb_le in E2. rewrite skipn_all2 by (unfold len in *; lia).
    now rewrite firstn_nil.
  - now rewrite Nat2Z.id.
Qed.

Lemma NewSectionReader_base (r : ReaderAt) (n : Z) :
  SectionReader.base (NewSectionReader r 0 n) = 0
  /\ SectionReader.off (NewSectionReader r 0 n) = 0
  /\ SectionReader.r (NewSectionReader r 0 n) = r.
Proof. now unfold NewSectionReader. Qed.

(** Whatever [n] is, the section ends inside [int64]. *)
Lemma NewSectionReader_limit_range (r : ReaderAt) (n : Z) :
  0 <= SectionReader.limit (NewSectionReader r 0 n) <= MaxInt64.
Proof.
  unfold NewSectionReader. cbn [SectionReader.limit].
  destruct (0 <=? int64 (MaxInt64 - n)) eqn:E; [|unfold MaxInt64; lia].
  apply Z.leb_le in E. rewrite Z.add_0_r.
  pose proof (int64_range n) as Hr.
  pose proof (int64_range (MaxInt64 - n)) as Hr'.
  assert (Hn : int64 n = MaxInt64 - int64 (MaxInt64 - n)
               \/ int64 n = MaxInt64 - int64 (MaxInt64 - n) - 2 ^ 64
               \/ int64 n = MaxInt64 - int64 (MaxInt64 - n) + 2 ^ 64).
  { unfold int64, MaxInt64.
    pose proof (Z.div_mod (n + 2 ^ 63) (2 ^ 64) ltac:(lia)) as D1.
    pose proof (Z.div_mod (2 ^ 63 - 1 - n + 2 ^ 63) (2 ^ 64) ltac:(lia)) as D2.
    pose proof (Z.mod_pos_bound (n + 2 ^ 63) (2 ^ 64) ltac:(lia)) as B1.
    pose proof (Z.mod_pos_bound (2 ^ 63 - 1 - n + 2 ^ 63) (2 ^ 64) ltac:(lia)) as B2.
    lia. }
  unfold MinInt64, MaxInt64 in *. lia.
Qed.

Lemma NewSectionReader_limit (r : ReaderAt) (n : Z) :
  0 <= n <= MaxInt64 -> SectionReader.limit (NewSectionReader r 0 n) = n.
Proof.
  intros Hn. unfold NewSectionReader. cbn [SectionReader.limit].
  rewrite (int64_id (MaxInt64 - n)) by (unfold MinInt64, MaxInt64 in *; lia).
  destruct (0 <=? MaxInt64 - n) eqn:E; [|apply Z.leb_gt in E; lia].
  rewrite Z.add_0_r. apply int64_id. unfold MinInt64, MaxInt64 in *. lia.
Qed.

Lemma NewSectionReader_Size_range (r : ReaderAt) (n : Z) :
  0 <= SectionReader.Size (NewSectionReader r 0 n) <= MaxInt64.
Proof.
  unfold SectionReader.Size.
  pose proof (NewSectionReader_limit_range r n) as Hl.
  destruct (NewSectionReader_base r n) as (-> & _ & _).
  rewrite Z.sub_0_r, int64_id; [exact Hl|]. unfold MinInt64, MaxInt64 in *. lia.
Qed.

Lemma NewSectionReader_Size (r : ReaderAt) (n : Z) :
  0 <= n <= MaxInt64 -> SectionReader.Size (NewSectionReader r 0 n) = n.
Proof.
  intros Hn. unfold SectionReader.Size.
  rewrite NewSectionReader_limit by exact Hn.
  destruct (NewSectionReader_base r n) as (-> & _ & _).
  rewrite Z.sub_0_r. apply int64_id. unfold MinInt64, MaxInt64 in *. lia.
Qed.

(** [Read] and [Seek] move the offset only. *)
Lemma Read_frame (s : SectionReader.t) (p : list byte) :
  let '(s', p', _, _) := SectionReader.Read s p in
  SectionReader.r s' = SectionReader.r s
  /\ SectionReader.base s' = SectionReader.base s
  /\ SectionReader.limit s' = SectionReader.limit s
  /\ length p' = length p.
Proof.
  unfold SectionReader.Read.
  destruct (SectionReader.limit s <=? SectionReader.off s) eqn:E; [tauto|].
  destruct (ReadAt _ _ _) as [data err]. simpl.
  repeat split.
  set (k := if _ <? len p then _ else _).
  assert (Hk : k <= len p).
  { subst k. destruct (_ <? len p) eqn:E'; [apply Z.ltb_lt in E'|]; lia. }
  rewrite length_app, length_skipn, length_firstn. unfold len in Hk. lia.
Qed.

Lemma Seek_frame (s : SectionReader.t) (offset whence : Z) :
  let '(s', _, _) := SectionReader.Seek s offset whence in
  SectionReader.r s' = SectionReader.r s
  /\ SectionReader.base s' = SectionReader.base s
  /\ SectionReader.limit s' = SectionReader.limit s.
Proof.
  unfold SectionReader.Seek.
  destruct (if whence =? 0 then _ else _) as [target|]; [|tauto].
  destruct (target <? SectionReader.base s); simpl; tauto.
Qed.

Lemma NewSectionReader_eq (r : ReaderAt) (n : Z) :
  0 <= n <= MaxInt64 -> NewSectionReader r 0 n = SectionReader.mk r 0 0 n.
Proof.
  intros Hn. pose proof (NewSectionReader_limit r n Hn) as Hl.
  unfold NewSectionReader in *. cbn [SectionReader.limit] in Hl. now rewrite Hl.
Qed.

Lemma Size_mk (r : ReaderAt) (off limit : Z) :
  0 <= limit <= MaxInt64 ->
  SectionReader.Size (SectionReader.mk r 0 off limit) = limit.
Proof.
  intros Hl. unfold SectionReader.Size. cbn [SectionReader.limit SectionReader.base].
  rewrite Z.sub_0_r. apply int64_id. unfold MinInt64, MaxInt64 in *. lia.
Qed.

(** A read from a reader that serves [B], through a section that spans
    [B]: the front of [p] receives the bytes of [B] at the offset, clipped
    to the end of [B]; the rest of [p] keeps what it held. *)
Lemma Read_serves (r : ReaderAt) (B p : list byte) (off : Z) :
  serves r B -> len B <= MaxInt64 -> 0 <= off <= len B ->
  let k := Z.min (len B - off) (len p) in
  exists n err,
    SectionReader.Read (SectionReader.mk r 0 off (len B)) p =
    (SectionReader.mk r 0 (off + k) (len B),
     window B off k ++ skipn (Z.to_nat k) p, n, err).
Proof.
  intros Hs HB Ho k. unfold SectionReader.Read.
  cbn [SectionReader.limit SectionReader.off SectionReader.base SectionReader.r].
  pose proof (len_nonneg p) as Hp.
  destruct (len B <=? off) eqn:E.
  - apply Z.leb_le in E. assert (Hk : k = 0) by lia. rewrite Hk, Z.add_0_r.
    exists 0, (Some EOF). unfold window. reflexivity.
  - apply Z.leb_gt in E.
    rewrite (int64_id (len B - off)) by (unfold MinInt64, MaxInt64 in *; lia).
    replace (if len B - off <? len p then len B - off else len p) with k
      by (destruct (len B - off <? len p) eqn:E';
          [apply Z.ltb_lt in E'|apply Z.ltb_ge in E']; lia).
    pose proof (Hs (Z.to_nat k) off ltac:(lia) ltac:(lia)) as Hr.
    rewrite Z2Nat.id in Hr by lia.
    destruct (ReadAt r (Z.to_nat k) off) as [data err]. cbn [fst] in Hr. subst data.
    pose proof (window_length B off k ltac:(lia) ltac:(lia) ltac:(lia)) as Hw.
    assert (Hf : firstn (Z.to_nat k) (window B off k) = window B off k).
    { apply firstn_all2. unfold len in Hw. lia. }
    rewrite Hf, Hw.
    rewrite (int64_id (off + k)) by (unfold MinInt64, MaxInt64 in *; lia).
    replace (length (window B off k)) with (Z.to_nat k) by (unfold len in Hw; lia).
    now exists k, err.
Qed.

(** The same when the whole of [p] fits before the end of [B]. *)
Lemma Read_serves_full (r : ReaderAt) (B p : list byte) (off : Z) :
  serves r B -> len B <= MaxInt64 -> 0 <= off -> off + len p <= len B ->
  exists n err,
    SectionReader.Read (SectionReader.mk r 0 off (len B)) p =
    (SectionReader.mk r 0 (off + len p) (len B), window B off (len p), n, err).
Proof.
  intros Hs HB Ho Hp. pose proof (len_nonneg p) as Hp0.
  destruct (Read_serves r B p off Hs HB ltac:(lia)) as (n & err & E).
  replace (Z.min (len B - off) (len p)) with (len p) in E by lia.
  rewrite skipn_all2, app_nil_r in E by (unfold len; lia).
  now exists n, err.
Qed.

Lemma Seek_start (r : ReaderAt) (off limit offset : Z) :
  0 <= offset <= MaxInt64 ->
  exists pos,
    SectionReader.Seek (SectionReader.mk r 0 off limit) offset 0 =
    (SectionReader.mk r 0 offset limit, pos, None).
Proof.
  intros Ho. unfold SectionReader.Seek.
  cbn [SectionReader.limit SectionReader.off SectionReader.base SectionReader.r].
  change (0 =? 0) with true. cbv iota.
  rewrite Z.add_0_r, (int64_id (offset)) by (unfold MinInt64, MaxInt64 in *; lia).
  destruct (offset <? 0) eqn:E; [apply Z.ltb_lt in E; lia|].
  eexists. reflexivity.
Qed.

Lemma Seek_end (r : ReaderAt) (off limit n : Z) :
  1 <= n <= limit -> limit <= MaxInt64 ->
  exists pos,
    SectionReader.Seek (SectionReader.mk r 0 off limit) (int64 (- n)) 2 =
    (SectionReader.mk r 0 (limit - n) limit, pos, None).
Proof.
  intros Hn Hl. unfold SectionReader.Seek.
  cbn [SectionReader.limit SectionReader.off SectionReader.base SectionReader.r].
  change (2 =? 0) with false. change (2 =? 1) with false.
  change (2 =? 2) with true. cbv iota.
  rewrite (int64_id (- n)) by (unfold MinInt64, MaxInt64 in *; lia).
  rewrite (int64_id (- n + limit)) by (unfold MinInt64, MaxInt64 in *; lia).
  replace (- n + limit) with (limit - n) by lia.
  destruct (limit - n <? 0) eqn:E; [apply Z.ltb_lt in E; lia|].
  eexists. reflexivity.
Qed.

(** ** The one-shot computation *)

Section OneShot.

Context {H : Hash128}.

Lemma raw_digest_length (h : hstate) : length (raw_digest h) = 16%nat.
Proof. unfold raw_digest. apply (hSum_append h []). Qed.

Lemma hSum_nil (h : hstate) : hSum h [] = (h, raw_digest h).
Proof.
  unfold raw_digest. pose proof (hSum_state h []) as Hs.
  destruct (hSum h []) as [h' d]. cbn [fst snd] in *. now subst.
Qed.

Lemma embed_length (x : Z) (d : list byte) :
  length d = 16%nat -> 0 <= x < 2 ^ 64 -> length (embed x d) = 16%nat.
Proof.
  intros Hd Hx. unfold embed. pose proof (uvarint_length x Hx).
  rewrite overwrite_length; lia.
Qed.

Lemma with_hasher_hasher (imo : ImoHash H) : with_hasher imo (hasher imo) = imo.
Proof. now destruct imo. Qed.

(** The last three statements of [hashCore] and of [Sum]: digest, length
    prefix, copy.  They cannot panic. *)
Lemma finish_ok (h : hstate) (x : Z) (A : Type) (k : hstate -> list byte -> A) :
  (let '(h', hash) := hSum h [] in
   '(hash', _) <- PutUvarint hash (uint64 x) ;;
   Ok (k h' hash')) = Ok (k h (embed (uint64 x) (raw_digest h))).
Proof.
  rewrite hSum_nil.
  rewrite (PutUvarint_digest _ _ (raw_digest_length h) (uint64_range x)).
  reflexivity.
Qed.

Lemma copy_result (x : Z) (h : hstate) :
  copy (repeat x00 (Z.to_nat Size)) (embed (uint64 x) (raw_digest h))
  = embed (uint64 x) (raw_digest h).
Proof.
  apply copy_full. rewrite repeat_length.
  rewrite (embed_length _ _ (raw_digest_length h) (uint64_range x)). reflexivity.
Qed.

(** [hashCore] does not panic on a section of non-negative size when the
    buffer it asks for is within the allocation limit, and its result has
    the following shape: the engine keeps its parameters and
    counter, the hasher holds one write of [Size f] bytes or three writes
    of [sampleSize] bytes on top of a reset state, and the identifier is
    the digest of that state with the size embedded. *)
Lemma hashCore_shape (imo : ImoHash H) (f : SectionReader.t) :
  0 <= SectionReader.Size f ->
  buffer_len (sampleSize imo) (sampleThreshold imo) (SectionReader.Size f)
  <= maxAlloc ->
  exists (ws : list (list byte)) (f' : SectionReader.t),
    let h := fold_left hWrite ws New128 in
    hashCore imo f =
      Ok (with_hasher imo h, f',
          embed (uint64 (SectionReader.Size f)) (raw_digest h))
    /\ (if (SectionReader.Size f <? sampleThreshold imo) || (sampleSize imo <? 1)
        then exists b, ws = [b] /\ len b = SectionReader.Size f
        else exists b1 b2 b3, ws = [b1; b2; b3]
             /\ len b1 = sampleSize imo /\ len b2 = sampleSize imo
             /\ len b3 = sampleSize imo).
Proof.
  intros HS HA. unfold hashCore. rewrite hReset_New128.
  unfold buffer_len in HA.
  destruct ((SectionReader.Size f <? sampleThreshold imo) || (sampleSize imo <? 1))
    eqn:Hc.
  - rewrite make_ok by lia. cbn [bind].
    pose proof (Read_frame f (repeat x00 (Z.to_nat (SectionReader.Size f)))) as Hf.
    destruct (SectionReader.Read f _) as [[[f1 b1] n1] e1].
    destruct Hf as (Hr & Hb & Hl & Hlen). cbn [bind].
    assert (HS1 : SectionReader.Size f1 = SectionReader.Size f)
      by (unfold SectionReader.Size; now rewrite Hb, Hl).
    rewrite HS1.
    rewrite (finish_ok (hWrite New128 b1) (SectionReader.Size f) _
               (fun h' hash' => (with_hasher imo h', f1,
                  copy (repeat x00 (Z.to_nat Size)) hash'))).
    rewrite copy_result.
    exists [b1], f1. split; [reflexivity|].
    exists b1. split; [reflexivity|].
    unfold len. rewrite Hlen, repeat_length. lia.
  - apply orb_false_iff in Hc. destruct Hc as [_ Hss]. apply Z.ltb_ge in Hss.
    rewrite make_ok by lia. cbn [bind].
    pose proof (Read_frame f (repeat x00 (Z.to_nat (sampleSize imo)))) as Hf1.
    destruct (SectionReader.Read f _) as [[[f1 b1] n1] e1].
    destruct Hf1 as (Hr1 & Hb1 & Hl1 & Hlen1).
    pose proof (Seek_frame f1 (SectionReader.Size f1 ÷ 2) 0) as Hf2.
    destruct (SectionReader.Seek f1 _ 0) as [[f2 p2] e2].
    destruct Hf2 as (Hr2 & Hb2 & Hl2).
    pose proof (Read_frame f2 b1) as Hf3.
    destruct (SectionReader.Read f2 b1) as [[[f3 b3] n3] e3].
    destruct Hf3 as (Hr3 & Hb3 & Hl3 & Hlen3).
    pose proof (Seek_frame f3 (int64 (- sampleSize imo)) 2) as Hf4.
    destruct (SectionReader.Seek f3 _ 2) as [[f4 p4] e4].
    destruct Hf4 as (Hr4 & Hb4 & Hl4).
    pose proof (Read_frame f4 b3) as Hf5.
    destruct (SectionReader.Read f4 b3) as [[[f5 b5] n5] e5].
    destruct Hf5 as (Hr5 & Hb5 & Hl5 & Hlen5). cbn [bind].
    assert (HS5 : SectionReader.Size f5 = SectionReader.Size f).
    { unfold SectionReader.Size. congruence. }
    rewrite HS5.
    rewrite (finish_ok (hWrite (hWrite (hWrite New128 b1) b3) b5)
               (SectionReader.Size f) _
               (fun h' hash' => (with_hasher imo h', f5,
                  copy (repeat x00 (Z.to_nat Size)) hash'))).
    rewrite copy_result.
    exists [b1; b3; b5], f5. split; [reflexivity|].
    exists b1, b3, b5. split; [reflexivity|].
    unfold len. rewrite Hlen5, Hlen3, Hlen1, repeat_length. lia.
Qed.

(** Beyond the allocation limit [hashCore] panics in [make], before any
    read. *)
Lemma hashCore_panics (imo : ImoHash H) (f : SectionReader.t) :
  maxAlloc
  < buffer_len (sampleSize imo) (sampleThreshold imo) (SectionReader.Size f) ->
  hashCore imo f = Panic.
Proof.
  intros HA. unfold hashCore, buffer_len in *.
  destruct ((SectionReader.Size f <? sampleThreshold imo) || (sampleSize imo <? 1));
    rewrite make_panics by (right; exact HA); reflexivity.
Qed.

(** The engine enters [hashCore] only through its parameters: the
    hasher is reset first, and the counter is not read. *)
Lemma hashCore_config (imo : ImoHash H) (f : SectionReader.t) :
  hashCore imo f =
  match hashCore (NewCustom (sampleSize imo) (sampleThreshold imo)) f with
  | Ok (i, f', id) => Ok (with_hasher imo (hasher i), f', id)
  | Panic => Panic
  end.
Proof.
  unfold hashCore, NewCustom. cbn [hasher sampleSize sampleThreshold].
  rewrite !hReset_New128.
  destruct ((SectionReader.Size f <? sampleThreshold imo) || (sampleSize imo <? 1)).
  - destruct (make (SectionReader.Size f)) as [buffer|]; [|reflexivity].
    cbn [bind].
    destruct (SectionReader.Read f buffer) as [[[f1 b1] n1] e1]. cbn [bind].
    destruct (hSum (hWrite New128 b1) []) as [h hash].
    destruct (PutUvarint hash _) as [[hash' n]|]; reflexivity.
  - destruct (make (sampleSize imo)) as [buffer|]; [|reflexivity].
    cbn [bind].
    destruct (SectionReader.Read f buffer) as [[[f1 b1] n1] e1].
    destruct (SectionReader.Seek f1 _ 0) as [[f2 p2] e2].
    destruct (SectionReader.Read f2 b1) as [[[f3 b3] n3] e3].
    destruct (SectionReader.Seek f3 _ 2) as [[f4 p4] e4].
    destruct (SectionReader.Read f4 b3) as [[[f5 b5] n5] e5]. cbn [bind].
    destruct (hSum _ []) as [h hash].
    destruct (PutUvarint hash _) as [[hash' n]|]; reflexivity.
Qed.

Lemma window_all (B : list byte) : window B 0 (len B) = B.
Proof.
  unfold window, len. rewrite Nat2Z.id. change (Z.to_nat 0) with 0%nat.
  rewrite skipn_O. apply firstn_all.
Qed.

(** The whole-content path on a source that serves [B]: one write, of [B]. *)
Lemma hashCore_whole (imo : ImoHash H) (r : ReaderAt) (B : list byte) :
  serves r B -> len B <= maxAlloc ->
  len B < sampleThreshold imo \/ sampleSize imo < 1 ->
  hashCore imo (NewSectionReader r 0 (len B)) =
  Ok (with_hasher imo (hWrite New128 B),
      SectionReader.mk r 0 (len B) (len B),
      embed (len B) (raw_digest (hWrite New128 B))).
Proof.
  intros Hs HA Hc. pose proof (len_nonneg B) as H0.
  assert (HB : len B <= MaxInt64) by (pose proof maxAlloc_int64; lia).
  rewrite NewSectionReader_eq by lia.
  unfold hashCore. rewrite hReset_New128, Size_mk by lia.
  replace ((len B <? sampleThreshold imo) || (sampleSize imo <? 1)) with true
    by (symmetry; apply orb_true_iff; rewrite !Z.ltb_lt; exact Hc).
  rewrite make_ok by lia.
  cbn [bind].
  assert (Hp : len (repeat x00 (Z.to_nat (len B))) = len B)
    by (apply len_repeat; lia).
  destruct (Read_serves_full r B (repeat x00 (Z.to_nat (len B))) 0 Hs HB
              ltac:(lia) ltac:(lia)) as (n & err & ->).
  rewrite Hp, window_all. cbn [bind]. rewrite Size_mk by lia.
  rewrite (finish_ok (hWrite New128 B) (len B) _
             (fun h' hash' => (with_hasher imo h',
                SectionReader.mk r 0 (0 + len B) (len B),
                copy (repeat x00 (Z.to_nat Size)) hash'))).
  rewrite copy_result, uint64_id by lia. reflexivity.
Qed.

(** The sampling path on a source that serves [B], when the middle
    window ends inside [B] (the first and the last one then do too):
    three writes, of the three windows. *)
Lemma hashCore_sampling (imo : ImoHash H) (r : ReaderAt) (B : list byte) :
  serves r B -> len B <= MaxInt64 ->
  sampleThreshold imo <= len B -> 1 <= sampleSize imo ->
  len B / 2 + sampleSize imo <= len B ->
  sampleSize imo <= maxAlloc ->
  let ss := sampleSize imo in
  let h := hWrite (hWrite (hWrite New128 (window B 0 ss))
                     (window B (len B / 2) ss))
             (window B (len B - ss) ss) in
  hashCore imo (NewSectionReader r 0 (len B)) =
  Ok (with_hasher imo h, SectionReader.mk r 0 (len B) (len B),
      embed (len B) (raw_digest h)).
Proof.
  intros Hs HB Hst Hss Hmid HA ss h. pose proof (len_nonneg B) as H0.
  assert (Hq : len B ÷ 2 = len B / 2) by (apply Z.quot_div_nonneg; lia).
  assert (Hhalf : 0 <= len B / 2) by (apply Z.div_pos; lia).
  rewrite NewSectionReader_eq by lia.
  unfold hashCore. rewrite hReset_New128, Size_mk by lia.
  replace ((len B <? sampleThreshold imo) || (sampleSize imo <? 1)) with false
    by (symmetry; apply orb_false_iff; rewrite !Z.ltb_ge; lia).
  rewrite make_ok by lia. fold ss.
  cbn [bind].
  assert (Hp : len (repeat x00 (Z.to_nat ss)) = ss) by (apply len_repeat; lia).
  destruct (Read_serves_full r B (repeat x00 (Z.to_nat ss)) 0 Hs HB
              ltac:(lia) ltac:(lia)) as (n1 & e1 & ->).
  rewrite Hp, Size_mk, Hq by lia.
  destruct (Seek_start r (0 + ss) (len B) (len B / 2) ltac:(lia)) as (p2 & ->).
  assert (Hw1 : len (window B 0 ss) = ss) by (apply window_length; lia).
  destruct (Read_serves_full r B (window B 0 ss) (len B / 2) Hs HB
              ltac:(lia) ltac:(lia)) as (n3 & e3 & ->).
  rewrite Hw1.
  destruct (Seek_end r (len B / 2 + ss) (len B) ss ltac:(lia) HB) as (p4 & ->).
  assert (Hw2 : len (window B (len B / 2) ss) = ss) by (apply window_length; lia).
  destruct (Read_serves_full r B (window B (len B / 2) ss) (len B - ss) Hs HB
              ltac:(lia) ltac:(lia)) as (n5 & e5 & ->).
  rewrite Hw2. cbn [bind]. rewrite Size_mk by lia.
  replace (len B - ss + ss) with (len B) by lia.
  subst h.
  rewrite (finish_ok _ (len B) _
             (fun h' hash' => (with_hasher imo h',
                SectionReader.mk r 0 (len B) (len B),
                copy (repeat x00 (Z.to_nat Size)) hash'))).
  rewrite copy_result, uint64_id by lia. reflexivity.
Qed.

End OneShot.

(** ** Worked examples, on the recording hasher *)

Example uvarint_examples :
  uvarint 0 = [x00] /\ uvarint 127 = [x7f] /\ uvarint 128 = [x80; x01]
  /\ uvarint 300 = [xac; x02] /\ uvarint SampleThreshhold = [x80; x80; x08].
Proof. vm_compute. repeat split. Qed.

(** A buffer of no bytes takes the whole-content path: one empty write. *)
Example Sum128_empty :
  Sum128 (H := Recorder) [] = Ok (embed 0 (checksum128 []))
  /\ final_hasher (hashCore (H := Recorder) New
                     (NewSectionReader (bytes_NewReader []) 0 0))
     = Some [[]].
Proof. split; vm_compute; reflexivity. Qed.

(** Nine bytes, samples of four, threshold nine: the three windows. *)
Example sampling_nine_bytes :
  final_hasher
    (hashCore (H := Recorder) (NewCustom 4 9)
       (NewSectionReader (bytes_NewReader (ramp 1 9)) 0 9))
  = Some [[x01; x02; x03; x04]; [x05; x06; x07; x08]; [x06; x07; x08; x09]].
Proof. vm_compute. reflexivity. Qed.

(** Two bytes, samples of four: the reads are cut short, the last [Seek]
    fails, and what the buffer held before is written again. *)
Example sampling_two_bytes :
  final_hasher
    (hashCore (H := Recorder) (NewCustom 4 0)
       (NewSectionReader (bytes_NewReader [x01; x02]) 0 2))
  = Some [[x01; x02; x00; x00]; [x02; x02; x00; x00]; [x02; x02; x00; x00]].
Proof. vm_compute. reflexivity. Qed.

(** A file whose reads all fail: [SumFile] returns the identifier of four
    zero bytes, the buffer that no read filled, and no error. *)
Example SumFile_failingFile :
  SumFile (H := Recorder) failingFS "disk.img"
  = Ok (embed 4 (checksum128 (repeat x00 4)), None).
Proof. vm_compute. reflexivity. Qed.

(** ** The claims *)

Lemma embed_split (x : Z) (d : list byte) :
  firstn (length (uvarint x)) (embed x d) = uvarint x
  /\ skipn (length (uvarint x)) (embed x d) = skipn (length (uvarint x)) d.
Proof.
  unfold embed. generalize (uvarint x) as enc. intros enc. split.
  - rewrite firstn_app, Nat.sub_diag, firstn_all. cbn [firstn]. apply app_nil_r.
  - rewrite skipn_app, Nat.sub_diag, skipn_all. reflexivity.
Qed.

(** [hashCore] returns on the sections the entry points build when its
    buffer is within the allocation limit, and its identifier has 16
    bytes. *)
Lemma hashCore_total (H : Hash128) (imo : ImoHash H) (r : ReaderAt) (n : Z) :
  buffer_len (sampleSize imo) (sampleThreshold imo)
    (SectionReader.Size (NewSectionReader r 0 n)) <= maxAlloc ->
  exists imo' f' id,
    hashCore imo (NewSectionReader r 0 n) = Ok (imo', f', id)
    /\ length id = 16%nat.
Proof.
  intros HA. pose proof (NewSectionReader_Size_range r n) as HS.
  destruct (hashCore_shape imo (NewSectionReader r 0 n) ltac:(lia) HA)
    as (ws & f' & E & _).
  eexists _, f', _. split; [exact E|].
  apply embed_length; [apply raw_digest_length|apply uint64_range].
Qed.

(** With the default parameters the buffer is a whole source shorter than
    the threshold, or one sample: always within the limit. *)
Lemma buffer_len_default (S : Z) :
  buffer_len SampleSize SampleThreshhold S <= maxAlloc.
Proof.
  unfold buffer_len, SampleSize, SampleThreshhold, maxAlloc.
  destruct (S <? 128 * 1024) eqn:E; cbn [orb].
  - apply Z.ltb_lt in E. lia.
  - change (16 * 1024 <? 1) with false. cbv iota. lia.
Qed.

(** A run that returns had its buffer within the limit. *)
Lemma hashCore_Ok_fits (H : Hash128) (imo : ImoHash H) (f : SectionReader.t)
  (res : ImoHash H * SectionReader.t * list byte) :
  hashCore imo f = Ok res ->
  buffer_len (sampleSize imo) (sampleThreshold imo) (SectionReader.Size f)
  <= maxAlloc.
Proof.
  intros E.
  destruct (Z.le_gt_cases
              (buffer_len (sampleSize imo) (sampleThreshold imo)
                 (SectionReader.Size f)) maxAlloc) as [Hle|Hgt]; [exact Hle|].
  rewrite (hashCore_panics imo f) in E by lia. discriminate E.
Qed.

(** C3.  Every one-shot computation that returns, returns an identifier
    of exactly 16 bytes: its leading bytes are the variable-length encoding
    of the source's size [S] (one to nine bytes), written over the raw
    digest of the mixing primitive, and the bytes behind the encoding are
    those of the raw digest at the same positions.  It returns whenever
    the buffer it allocates is within the allocation limit, and panics in
    [make] otherwise. *)
Theorem C3_identifier_layout :
  forall (H : Hash128) (imo : ImoHash H) (r : ReaderAt) (n : Z),
  let S := SectionReader.Size (NewSectionReader r 0 n) in
  (buffer_len (sampleSize imo) (sampleThreshold imo) S <= maxAlloc ->
   exists imo' f' id,
     hashCore imo (NewSectionReader r 0 n) = Ok (imo', f', id)
     /\ length id = 16%nat
     /\ let k := length (uvarint S) in
        (1 <= k <= 9)%nat
        /\ firstn k id = uvarint S
        /\ skipn k id = skipn k (raw_digest (hasher imo'))
        /\ (0 <= n <= MaxInt64 -> S = n))
  /\ (maxAlloc < buffer_len (sampleSize imo) (sampleThreshold imo) S ->
      hashCore imo (NewSectionReader r 0 n) = Panic).
Proof.
  intros H imo r n S. split; [|apply hashCore_panics].
  intros HA.
  pose proof (NewSectionReader_Size_range r n) as HS.
  pose proof (NewSectionReader_Size r n) as Hn.
  destruct (hashCore_shape imo (NewSectionReader r 0 n) ltac:(lia) HA)
    as (ws & f' & E & _).
  rewrite uint64_id in E by exact HS.
  subst S.
  revert HS Hn E. generalize (SectionReader.Size (NewSectionReader r 0 n)) as S.
  intros S HS Hn E.
  exists (with_hasher imo (fold_left hWrite ws New128)), f',
    (embed S (raw_digest (fold_left hWrite ws New128))).
  split; [exact E|].
  split; [apply embed_length;
          [apply raw_digest_length|unfold MaxInt64 in HS; lia]|].
  cbv zeta. cbn [hasher with_hasher].
  split; [exact (uvarint_length_int64 S HS)|].
  split; [apply embed_split|]. split; [apply embed_split|exact Hn].
Qed.

(** C3 at work: the nine bytes [1..9] under the default parameters. *)
Lemma C3_identifier_layout_witness :
  exists imo' f' id,
    hashCore (H := Recorder) New
      (NewSectionReader (bytes_NewReader (ramp 1 9)) 0 9) = Ok (imo', f', id)
    /\ length id = 16%nat.
Proof.
  destruct (proj1 (C3_identifier_layout Recorder New
                     (bytes_NewReader (ramp 1 9)) 9)
              ltac:(vm_compute; discriminate))
    as (imo' & f' & id & E & Hl & _).
  exists imo', f', id. split; [exact E|exact Hl].
Defined.

(** [Sum] returns the engine as it was, and the prefix followed by the
    digest with the counter embedded. *)
Lemma ImoHash_Sum_eq (H : Hash128) (imo : ImoHash H) (data : list byte) :
  ImoHash_Sum imo data =
  Ok (imo, data ++ embed (uint64 (bytesAdded imo)) (raw_digest (hasher imo))).
Proof.
  unfold ImoHash_Sum.
  rewrite (finish_ok (hasher imo) (bytesAdded imo) _
             (fun h' hash' => (with_hasher imo h', data ++ hash'))).
  now rewrite with_hasher_hasher.
Qed.


(** C10.  A one-shot computation resets the mixing primitive (what it
    leaves in the hasher is built on a new state, whatever was there) but
    does not touch [bytesAdded] nor the parameters: a [Sum] that follows
    still embeds the old count.  The same holds of the [SumFile] method.
    Both return whenever the buffer is within the allocation limit. *)
Theorem C10_hashCore_keeps_bytesAdded :
  forall (H : Hash128) (imo : ImoHash H),
    (forall (r : ReaderAt) (n : Z),
      buffer_len (sampleSize imo) (sampleThreshold imo)
        (SectionReader.Size (NewSectionReader r 0 n)) <= maxAlloc ->
      exists imo' f' id ws,
        hashCore imo (NewSectionReader r 0 n) = Ok (imo', f', id)
        /\ bytesAdded imo' = bytesAdded imo
        /\ sampleSize imo' = sampleSize imo
        /\ sampleThreshold imo' = sampleThreshold imo
        /\ hasher imo' = fold_left hWrite ws New128
        /\ forall prefix,
             ImoHash_Sum imo' prefix =
             Ok (imo', prefix ++ embed (uint64 (bytesAdded imo))
                                   (raw_digest (hasher imo'))))
    /\ (forall (fs : FileSystem) (filename : string),
      (forall f n, fs filename = inl f -> Stat f = inl n ->
         buffer_len (sampleSize imo) (sampleThreshold imo)
           (SectionReader.Size (NewSectionReader (FileReaderAt f) 0 n))
         <= maxAlloc) ->
      exists imo' res,
        ImoHash_SumFile fs imo filename = Ok (imo', res)
        /\ bytesAdded imo' = bytesAdded imo)
    /\ (forall (fs : FileSystem) (filename : string) imo' res,
      ImoHash_SumFile fs imo filename = Ok (imo', res) ->
      bytesAdded imo' = bytesAdded imo).
Proof.
  intros H imo.
  assert (Hcore : forall r n,
    buffer_len (sampleSize imo) (sampleThreshold imo)
      (SectionReader.Size (NewSectionReader r 0 n)) <= maxAlloc ->
    exists imo' f' id ws,
    hashCore imo (NewSectionReader r 0 n) = Ok (imo', f', id)
    /\ imo' = with_hasher imo (fold_left hWrite ws New128)).
  { intros r n HA. pose proof (NewSectionReader_Size_range r n) as HS.
    destruct (hashCore_shape imo (NewSectionReader r 0 n) ltac:(lia) HA)
      as (ws & f' & E & _).
    eexists _, f', _, ws. split; [exact E|reflexivity]. }
  split; [|split].
  - intros r n HA. destruct (Hcore r n HA) as (imo' & f' & id & ws & E & ->).
    eexists _, f', id, ws. split; [exact E|].
    repeat (split; [reflexivity|]).
    intros prefix. rewrite ImoHash_Sum_eq. reflexivity.
  - intros fs filename Hfit. unfold ImoHash_SumFile.
    destruct (fs filename) as [f|err]; [|now eexists _, _].
    destruct (Stat f) as [n|err] eqn:Hstat; [|now eexists _, _].
    destruct (Hcore (FileReaderAt f) n (Hfit f n eq_refl Hstat))
      as (imo' & f' & id & ws & -> & ->).
    cbn [bind]. now eexists _, _.
  - intros fs filename imo' res. unfold ImoHash_SumFile.
    destruct (fs filename) as [f|err]; [|now intros [= <- _]].
    destruct (Stat f) as [n|err]; [|now intros [= <- _]].
    destruct (hashCore imo _) as [[[i f'] id]|] eqn:E; [|discriminate].
    cbn [bind]. intros [= <- _].
    pose proof (hashCore_Ok_fits H imo _ _ E) as HA.
    destruct (Hcore (FileReaderAt f) n HA) as (i2 & f2 & id2 & ws & E2 & ->).
    rewrite E in E2. injection E2 as -> _ _. reflexivity.
Qed.

(** C10 at work: three bytes counted, then a one-shot run on nine. *)
Lemma C10_keeps_bytesAdded_witness :
  exists imo' f' id,
    hashCore (mkImoHash (H := Recorder) [[x01; x02; x03]] 4 9 3)
      (NewSectionReader (bytes_NewReader (ramp 1 9)) 0 9) = Ok (imo', f', id)
    /\ bytesAdded imo' = bytesAdded (mkImoHash (H := Recorder) [[x01; x02; x03]] 4 9 3).
Proof.
  destruct (proj1 (C10_hashCore_keeps_bytesAdded Recorder
                     (mkImoHash (H := Recorder) [[x01; x02; x03]] 4 9 3))
              (bytes_NewReader (ramp 1 9)) 9 ltac:(vm_compute; discriminate))
    as (imo' & f' & id & ws & E & Hb & _).
  exists imo', f', id. split; [exact E|exact Hb].
Defined.

(** C6.  With a fixed configuration, hashing the same buffer twice gives
    the same outcome: on two engines of that configuration, whatever their
    hasher and counter hold, and on one engine used twice in a row.  When
    the buffer allocated is within the allocation limit that outcome is a
    16-byte identifier; with the default configuration it is the result of
    [Sum128], which makes a new engine at each call. *)
Theorem C6_one_shot_deterministic :
  forall (H : Hash128) (B : list byte) (ss st : Z)
         (h1 h2 : hstate) (c1 c2 : Z),
  let sr := NewSectionReader (bytes_NewReader B) 0 (len B) in
  identifier (hashCore (mkImoHash h1 ss st c1) sr)
  = identifier (hashCore (mkImoHash h2 ss st c2) sr)
  /\ (buffer_len ss st (SectionReader.Size sr) <= maxAlloc ->
      exists id imo1 f1,
        length id = 16%nat
        /\ hashCore (mkImoHash h1 ss st c1) sr = Ok (imo1, f1, id)
        /\ identifier (hashCore (mkImoHash h2 ss st c2) sr) = Some id
        /\ identifier (hashCore imo1 sr) = Some id
        /\ (ss = SampleSize -> st = SampleThreshhold -> Sum128 B = Ok id)).
Proof.
  intros H B ss st h1 h2 c1 c2 sr. split.
  - rewrite (hashCore_config (mkImoHash h1 ss st c1)),
            (hashCore_config (mkImoHash h2 ss st c2)).
    cbn [sampleSize sampleThreshold].
    destruct (hashCore (NewCustom ss st) sr) as [[[i f] id]|]; reflexivity.
  - intros HA.
    pose proof (NewSectionReader_Size_range (bytes_NewReader B) (len B)) as HS.
    fold sr in HS.
    destruct (hashCore_shape (NewCustom ss st) sr ltac:(lia) HA)
      as (ws & f' & E & _).
    assert (Hany : forall imo, sampleSize imo = ss -> sampleThreshold imo = st ->
      hashCore imo sr =
      Ok (with_hasher imo (fold_left hWrite ws New128), f',
          embed (uint64 (SectionReader.Size sr))
            (raw_digest (fold_left hWrite ws New128)))).
    { intros imo Hss Hst. rewrite hashCore_config, Hss, Hst, E. reflexivity. }
    eexists _, _, f'.
    split; [|split; [apply Hany; reflexivity|split; [|split]]].
    + apply embed_length; [apply raw_digest_length|apply uint64_range].
    + rewrite Hany by reflexivity. reflexivity.
    + rewrite Hany by reflexivity. reflexivity.
    + intros -> ->. unfold Sum128. fold sr.
      rewrite (Hany New eq_refl eq_refl). reflexivity.
Qed.

(** C6 at work: nine bytes, samples of four, two engines. *)
Lemma C6_one_shot_deterministic_witness :
  exists id,
    identifier (hashCore (mkImoHash (H := Recorder) [[x07]] 4 0 5)
                  (NewSectionReader (bytes_NewReader (ramp 1 9)) 0
                     (len (ramp 1 9)))) = Some id
    /\ identifier (hashCore (mkImoHash (H := Recorder) [] 4 0 0)
                     (NewSectionReader (bytes_NewReader (ramp 1 9)) 0
                        (len (ramp 1 9)))) = Some id.
Proof.
  destruct (proj2 (C6_one_shot_deterministic Recorder (ramp 1 9) 4 0
                     (hWrite (Hash128 := Recorder) New128 [x07]) New128 5 0)
              ltac:(vm_compute; discriminate))
    as (id & imo1 & f1 & _ & E1 & E2 & _).
  exists id. split; [|exact E2].
  exact (f_equal identifier E1).
Defined.

(** C1, as stated, fails: the file [failingFile] opens and reports its
    size, every read of it fails, and [SumFile] still returns a digest and
    a nil error. *)
Lemma C1_read_failure_not_surfaced :
  ~ surfaces_read_failure (H := Recorder) failingFS "disk.img".
Proof.
  intros Hc.
  destruct (Hc failingFile 4 (PathError "read" "disk.img")
              eq_refl eq_refl eq_refl) as [e' He].
  vm_compute in He. discriminate He.
Qed.

(** C1, amended.  A failure to open the file or to stat it is surfaced at
    once as the call's error, together with the zero array and no digest.
    A failure while reading is never surfaced: once the file is open and
    its size known, [SumFile] returns the 16-byte identifier of [hashCore]
    and a nil error, whatever the reads return, when the buffer
    [hashCore] allocates is within the allocation limit, and panics in
    [make] otherwise.  With the default parameters the buffer always is
    within the limit: the [SumFile] function then returns a 16-byte
    identifier and a nil error, and [Sum128] a 16-byte identifier. *)
Theorem C1_open_and_stat_failures_surfaced :
  forall (H : Hash128) (fs : FileSystem) (imo : ImoHash H) (filename : string),
    match fs filename with
    | inr err =>
        ImoHash_SumFile fs imo filename = Ok (imo, (emptyArray, Some err))
        /\ SumFile fs filename = Ok (emptyArray, Some err)
    | inl f =>
        match Stat f with
        | inr err =>
            ImoHash_SumFile fs imo filename = Ok (imo, (emptyArray, Some err))
            /\ SumFile fs filename = Ok (emptyArray, Some err)
        | inl n =>
            let S := SectionReader.Size (NewSectionReader (FileReaderAt f) 0 n) in
            (buffer_len (sampleSize imo) (sampleThreshold imo) S <= maxAlloc ->
             exists imo' id,
               ImoHash_SumFile fs imo filename = Ok (imo', (id, None))
               /\ identifier
                    (hashCore imo (NewSectionReader (FileReaderAt f) 0 n))
                  = Some id
               /\ length id = 16%nat)
            /\ (maxAlloc < buffer_len (sampleSize imo) (sampleThreshold imo) S ->
                ImoHash_SumFile fs imo filename = Panic)
            /\ exists id',
                 SumFile fs filename = Ok (id', None) /\ length id' = 16%nat
        end
    end
    /\ forall data, exists id, Sum128 data = Ok id /\ length id = 16%nat.
Proof.
  intros H fs imo filename.
  split.
  - unfold SumFile, ImoHash_SumFile.
    destruct (fs filename) as [f|err]; [|split; reflexivity].
    destruct (Stat f) as [n|err]; [|split; reflexivity].
    cbv zeta. split; [|split].
    + intros HA.
      destruct (hashCore_total H imo (FileReaderAt f) n HA)
        as (imo' & f' & id & E & Hl).
      exists imo', id. rewrite E. cbn [bind identifier].
      split; [reflexivity|split; [reflexivity|exact Hl]].
    + intros HA. rewrite hashCore_panics by exact HA. reflexivity.
    + destruct (hashCore_total H New (FileReaderAt f) n (buffer_len_default _))
        as (imo2 & f2 & id2 & E2 & Hl2).
      exists id2. rewrite E2. split; [reflexivity|exact Hl2].
  - intros data. unfold Sum128.
    destruct (hashCore_total H New (bytes_NewReader data) (len data)
                (buffer_len_default _)) as (imo' & f' & id & E & Hl).
    exists id. rewrite E. split; [reflexivity|exact Hl].
Qed.

(** C1 at work: the file whose reads all fail. *)
Lemma C1_failures_witness :
  exists imo' id,
    ImoHash_SumFile (H := Recorder) failingFS New "disk.img"
    = Ok (imo', (id, None))
    /\ length id = 16%nat.
Proof.
  destruct (C1_open_and_stat_failures_surfaced Recorder failingFS New "disk.img")
    as [Hm _].
  unfold failingFS, failingFile in Hm. cbn [Stat FileReaderAt] in Hm.
  cbv zeta in Hm. destruct Hm as (Hfit & _).
  destruct (Hfit ltac:(vm_compute; discriminate)) as (imo' & id & E & _ & Hl).
  exists imo', id. split; [exact E|exact Hl].
Defined.

(** C2, as stated, fails when the middle window runs past the end of the
    source: with [sampleSize = 4] on the six bytes [1..6] the second read
    is cut to three bytes, and the second write carries them followed by
    the byte the first read left in the buffer. *)
Lemma C2_window_beyond_source :
  ~ (0 <= len (ramp 1 6) -> 1 <= 4 ->
     three_windows_mixed (H := Recorder) 4 0
       (bytes_NewReader (ramp 1 6)) (ramp 1 6)).
Proof.
  intros Hc.
  destruct (Hc ltac:(vm_compute; discriminate) ltac:(lia)) as [Hf _].
  vm_compute in Hf. discriminate Hf.
Qed.

(** C2, amended.  For a source of size [S >= sampleThreshold] with
    [sampleSize >= 1] whose middle window ends inside the source
    ([S/2 + sampleSize <= S]) and with [sampleSize] within the allocation
    limit, the one-shot path mixes, as three separate
    writes on a reset primitive and in this order, the bytes
    [[0, sampleSize)], [[S/2, S/2 + sampleSize)] and [[S - sampleSize, S)],
    each of [sampleSize] bytes, and leaves the reader at the end of the
    source. *)
Theorem C2_three_windows_in_range :
  forall (H : Hash128) (imo : ImoHash H) (r : ReaderAt) (B : list byte),
    serves r B -> len B <= MaxInt64 ->
    sampleThreshold imo <= len B -> 1 <= sampleSize imo ->
    len B / 2 + sampleSize imo <= len B ->
    sampleSize imo <= maxAlloc ->
    let ss := sampleSize imo in
    let w1 := window B 0 ss in
    let w2 := window B (len B / 2) ss in
    let w3 := window B (len B - ss) ss in
    let h := hWrite (hWrite (hWrite New128 w1) w2) w3 in
    hashCore imo (NewSectionReader r 0 (len B)) =
      Ok (with_hasher imo h, SectionReader.mk r 0 (len B) (len B),
          embed (len B) (raw_digest h))
    /\ len w1 = ss /\ len w2 = ss /\ len w3 = ss.
Proof.
  intros H imo r B Hs HB Hst Hss Hmid HA ss w1 w2 w3 h.
  pose proof (len_nonneg B) as H0.
  assert (Hhalf : 0 <= len B / 2) by (apply Z.div_pos; lia).
  split; [exact (hashCore_sampling imo r B Hs HB Hst Hss Hmid HA)|].
  subst w1 w2 w3 ss. repeat split; apply window_length; lia.
Qed.

(** C2 at work: nine bytes, samples of four. *)
Lemma C2_three_windows_witness :
  final_hasher
    (hashCore (H := Recorder) (NewCustom 4 0)
       (NewSectionReader (bytes_NewReader (ramp 1 9)) 0 (len (ramp 1 9))))
  = Some [ramp 1 4; ramp 5 4; ramp 6 4].
Proof.
  rewrite (proj1 (C2_three_windows_in_range Recorder (NewCustom 4 0)
                    (bytes_NewReader (ramp 1 9)) (ramp 1 9)
                    (bytes_NewReader_serves (ramp 1 9))
                    ltac:(vm_compute; discriminate)
                    ltac:(vm_compute; discriminate)
                    ltac:(vm_compute; discriminate)
                    ltac:(vm_compute; discriminate)
                    ltac:(vm_compute; discriminate))).
  vm_compute. reflexivity.
Defined.

(** The sampling path, on any reader: three writes of [sampleSize] bytes. *)
Lemma hashCore_three_writes (H : Hash128) (imo : ImoHash H)
  (r : ReaderAt) (B : list byte) :
  len B <= MaxInt64 -> sampleThreshold imo <= len B -> 1 <= sampleSize imo ->
  sampleSize imo <= maxAlloc ->
  exists b1 b2 b3,
    final_hasher (hashCore imo (NewSectionReader r 0 (len B)))
    = Some (hWrite (hWrite (hWrite New128 b1) b2) b3)
    /\ len b1 = sampleSize imo /\ len b2 = sampleSize imo
    /\ len b3 = sampleSize imo.
Proof.
  intros HB Hst Hss HA. pose proof (len_nonneg B) as H0.
  pose proof (NewSectionReader_Size r (len B) ltac:(lia)) as HS.
  assert (Hfalse : (len B <? sampleThreshold imo) || (sampleSize imo <? 1) = false)
    by (apply orb_false_iff; rewrite !Z.ltb_ge; lia).
  destruct (hashCore_shape imo (NewSectionReader r 0 (len B))) as (ws & f' & E & Hp).
  { lia. }
  { rewrite HS. unfold buffer_len. rewrite Hfalse. exact HA. }
  rewrite HS in Hp.
  replace ((len B <? sampleThreshold imo) || (sampleSize imo <? 1)) with false
    in Hp by (symmetry; apply orb_false_iff; rewrite !Z.ltb_ge; lia).
  destruct Hp as (b1 & b2 & b3 & -> & H1 & H2 & H3).
  exists b1, b2, b3. rewrite E. now repeat split.
Qed.

(** C4.  In one-shot mode the whole content is read and mixed as one write
    exactly when [S < sampleThreshold] or [sampleSize < 1]; otherwise three
    writes of [sampleSize] bytes are made.  The recording hasher tells the
    two apart.  In particular a source of exactly [sampleThreshold] bytes
    is sampled (with [sampleSize >= 1]).  The buffer of the path taken,
    the whole source or one sample, has to be within the allocation limit;
    beyond it the run panics in [make]. *)
Theorem C4_whole_content_iff :
  forall (r : ReaderAt) (B : list byte) (ss st : Z),
    serves r B -> len B <= MaxInt64 ->
    let sr := NewSectionReader r 0 (len B) in
    (forall (H : Hash128) (h0 : hstate) (c : Z),
       let res := hashCore (mkImoHash h0 ss st c) sr in
       (len B < st \/ ss < 1 -> len B <= maxAlloc ->
        final_hasher res = Some (hWrite New128 B))
       /\ (st <= len B /\ 1 <= ss -> ss <= maxAlloc ->
           exists b1 b2 b3,
             final_hasher res = Some (hWrite (hWrite (hWrite New128 b1) b2) b3)
             /\ len b1 = ss /\ len b2 = ss /\ len b3 = ss)
       /\ (maxAlloc < buffer_len ss st (len B) -> res = Panic))
    /\ (len B <= maxAlloc ->
        (final_hasher (hashCore (H := Recorder) (NewCustom ss st) sr) = Some [B]
         <-> (len B < st \/ ss < 1)))
    /\ (len B = st -> 1 <= ss <= maxAlloc ->
        exists b1 b2 b3,
          final_hasher (hashCore (H := Recorder) (NewCustom ss st) sr)
          = Some [b1; b2; b3]
          /\ len b1 = ss /\ len b2 = ss /\ len b3 = ss).
Proof.
  intros r B ss st Hs HB sr. pose proof (len_nonneg B) as H0.
  assert (Hgen : forall (H : Hash128) (h0 : hstate) (c : Z),
    (len B < st \/ ss < 1 -> len B <= maxAlloc ->
     final_hasher (hashCore (mkImoHash h0 ss st c) sr) = Some (hWrite New128 B))
    /\ (st <= len B /\ 1 <= ss -> ss <= maxAlloc ->
        exists b1 b2 b3,
          final_hasher (hashCore (mkImoHash h0 ss st c) sr)
          = Some (hWrite (hWrite (hWrite New128 b1) b2) b3)
          /\ len b1 = ss /\ len b2 = ss /\ len b3 = ss)
    /\ (maxAlloc < buffer_len ss st (len B) ->
        hashCore (mkImoHash h0 ss st c) sr = Panic)).
  { intros H h0 c. split; [|split].
    - intros Hc HA. unfold sr.
      rewrite (hashCore_whole (mkImoHash h0 ss st c) r B Hs HA Hc). reflexivity.
    - intros [Hst Hss] HA.
      exact (hashCore_three_writes H (mkImoHash h0 ss st c) r B HB Hst Hss HA).
    - intros HA. apply hashCore_panics. unfold sr.
      rewrite NewSectionReader_Size by lia. exact HA. }
  split; [exact Hgen|].
  destruct (Hgen Recorder New128 0) as (Hwhole & Hsample & Hpanic).
  unfold NewCustom.
  split; [intros HA; split|].
  - intros Hone.
    destruct (Z.lt_ge_cases (len B) st) as [Hlt|Hge]; [now left|].
    destruct (Z.lt_ge_cases ss 1) as [Hlt|Hge']; [now right|].
    destruct (Z.le_gt_cases ss maxAlloc) as [Hfit|Hbig].
    + destruct (Hsample (conj Hge Hge') Hfit) as (b1 & b2 & b3 & E & _).
      rewrite E in Hone. discriminate Hone.
    + rewrite Hpanic in Hone; [discriminate Hone|].
      unfold buffer_len.
      replace ((len B <? st) || (ss <? 1)) with false
        by (symmetry; apply orb_false_iff; rewrite !Z.ltb_ge; lia).
      lia.
  - intros Hc. exact (Hwhole Hc HA).
  - intros Heq [Hss HA]. apply Hsample; [lia|exact HA].
Qed.

(** C4 at work: nine bytes and a threshold of nine, the boundary. *)
Lemma C4_whole_content_witness :
  final_hasher
    (hashCore (H := Recorder) (NewCustom 4 9)
       (NewSectionReader (bytes_NewReader (ramp 1 9)) 0 (len (ramp 1 9))))
  = Some [ramp 1 9] <-> (len (ramp 1 9) < 9 \/ 4 < 1).
Proof.
  exact (proj1 (proj2 (C4_whole_content_iff (bytes_NewReader (ramp 1 9))
                         (ramp 1 9) 4 9 (bytes_NewReader_serves (ramp 1 9))
                         ltac:(vm_compute; discriminate)))
           ltac:(vm_compute; discriminate)).
Defined.



(** C7.  With [sampleSize < 1] the one-shot identifier of a buffer is the
    identifier of unconditional whole-content mixing, whatever the
    threshold and the length of the buffer (and whatever the engine held
    before).  The length of a buffer in memory is within the allocation
    limit. *)
Theorem C7_sampling_disabled :
  forall (H : Hash128) (imo : ImoHash H) (B : list byte),
    sampleSize imo < 1 -> len B <= maxAlloc ->
    identifier (hashCore imo (NewSectionReader (bytes_NewReader B) 0 (len B)))
    = Some (whole_content_identifier B).
Proof.
  intros H imo B Hss HB.
  rewrite (hashCore_whole imo (bytes_NewReader B) B
             (bytes_NewReader_serves B) HB (or_intror Hss)).
  reflexivity.
Qed.

(** C7 at work: nine bytes, a threshold of two, sampling disabled. *)
Lemma C7_sampling_disabled_witness :
  identifier
    (hashCore (H := Recorder) (NewCustom 0 2)
       (NewSectionReader (bytes_NewReader (ramp 1 9)) 0 (len (ramp 1 9))))
  = Some (whole_content_identifier (H := Recorder) (ramp 1 9)).
Proof.
  exact (C7_sampling_disabled Recorder (NewCustom 0 2) (ramp 1 9)
           ltac:(vm_compute; reflexivity) ltac:(vm_compute; discriminate)).
Defined.

(** C9.  For a buffer shorter than [SampleThreshhold], writing it once to
    a new engine, or to an engine that was just [Reset], and calling
    [Sum(nil)] gives the 16 bytes of [Sum128]. *)
Theorem C9_incremental_agrees_with_Sum128 :
  forall (H : Hash128) (B : list byte),
    len B < SampleThreshhold ->
    exists id,
      Sum128 B = Ok id
      /\ length id = 16%nat
      /\ (let '(imo, _, _) := ImoHash_Write New B in
          ImoHash_Sum imo [] = Ok (imo, id))
      /\ (forall imo0 : ImoHash H,
          let '(imo, _, _) := ImoHash_Write (ImoHash_Reset imo0) B in
          ImoHash_Sum imo [] = Ok (imo, id)).
Proof.
  intros H B Hlt. pose proof (len_nonneg B) as H0.
  assert (HB : len B <= MaxInt64)
    by (unfold SampleThreshhold, MaxInt64 in *; lia).
  assert (HA : len B <= maxAlloc)
    by (unfold SampleThreshhold, maxAlloc in *; lia).
  exists (embed (len B) (raw_digest (hWrite New128 B))).
  assert (Hc : int64 (0 + len B) = len B)
    by (apply int64_id; unfold MinInt64, MaxInt64 in *; lia).
  split; [|split; [|split]].
  - unfold Sum128.
    rewrite (hashCore_whole New (bytes_NewReader B) B
               (bytes_NewReader_serves B) HA (or_introl Hlt)).
    reflexivity.
  - apply embed_length; [apply raw_digest_length|unfold MaxInt64 in HB; lia].
  - unfold ImoHash_Write. rewrite ImoHash_Sum_eq.
    cbn [New NewCustom hasher bytesAdded]. rewrite Hc, uint64_id by lia.
    reflexivity.
  - intros imo0. unfold ImoHash_Write, ImoHash_Reset. rewrite ImoHash_Sum_eq.
    cbn [hasher bytesAdded].
    rewrite hReset_New128, Hc, uint64_id by lia. reflexivity.
Qed.

(** C9 at work: the nine bytes [1..9]. *)
Lemma C9_incremental_witness :
  exists id,
    Sum128 (H := Recorder) (ramp 1 9) = Ok id
    /\ length id = 16%nat
    /\ (let '(imo, _, _) := ImoHash_Write (H := Recorder) New (ramp 1 9) in
        ImoHash_Sum imo [] = Ok (imo, id))
    /\ (forall imo0 : ImoHash Recorder,
        let '(imo, _, _) := ImoHash_Write (ImoHash_Reset imo0) (ramp 1 9) in
        ImoHash_Sum imo [] = Ok (imo, id)).
Proof.
  exact (C9_incremental_agrees_with_Sum128 Recorder (ramp 1 9)
           ltac:(vm_compute; reflexivity)).
Defined.


(** * Further properties of the code *)

(** ** Bytes of the encoding *)

Lemma Z_of_byte_of_Z (x : Z) : Z_of_byte (byte_of_Z x) = Z.land x 255.
Proof.
  unfold Z_of_byte, byte_of_Z.
  assert (Hm : 0 <= Z.land x 255 < 256).
  { change 255 with (Z.ones 8). rewrite Z.land_ones by lia.
    apply Z.mod_pos_bound. lia. }
  destruct (Byte.of_N (Z.to_N (Z.land x 255))) as [b|] eqn:E.
  - apply Stdlib.Strings.Byte.to_of_N in E. rewrite E. lia.
  - apply Stdlib.Strings.Byte.of_N_None_iff in E. lia.
Qed.

Lemma land_255_small (x : Z) : 0 <= x < 256 -> Z.land x 255 = x.
Proof.
  intros Hx. change 255 with (Z.ones 8). rewrite Z.land_ones by lia.
  apply Z.mod_small. lia.
Qed.

(** A byte with the continuation bit carries the low seven bits of [x]. *)
Lemma continuation_low7 (x : Z) :
  Z.land (Z.land (Z.lor (Z.land x 255) 128) 255) 127 = x mod 128.
Proof.
  rewrite <- Z.land_assoc. change (Z.land 255 127) with (Z.ones 7).
  change 255 with (Z.ones 8). change 128 with (2 ^ 7).
  rewrite <- (Z.land_ones x 7) by lia.
  apply Z.bits_inj'. intros i Hi.
  rewrite !Z.land_spec, Z.lor_spec, Z.land_spec.
  rewrite !Z.testbit_ones_nonneg, Z.pow2_bits_eqb by lia.
  destruct (i <? 7) eqn:E7; [|now rewrite !andb_false_r].
  apply Z.ltb_lt in E7.
  replace (i <? 8) with true by (symmetry; apply Z.ltb_lt; lia).
  replace (7 =? i) with false by (symmetry; apply Z.eqb_neq; lia).
  now rewrite !andb_true_r, orb_false_r.
Qed.

(** Its top bit is set; the last byte of an encoding has it clear. *)
Lemma continuation_bit7 (x : Z) :
  Z.testbit (Z.land (Z.lor (Z.land x 255) 128) 255) 7 = true.
Proof.
  rewrite Z.land_spec, Z.lor_spec. change (Z.testbit 128 7) with true.
  change (Z.testbit 255 7) with true. now rewrite orb_true_r.
Qed.

Lemma final_bit7 (x : Z) : 0 <= x < 128 -> Z.testbit (Z.land x 255) 7 = false.
Proof.
  intros Hx. rewrite land_255_small by lia.
  apply Z.testbit_false; [lia|]. change (2 ^ 7) with 128.
  rewrite Z.div_small by lia. reflexivity.
Qed.

(** The encoding is prefix-free: whatever follows the two encodings, equal
    byte strings mean equal values. *)
Lemma uvarint_bytes_prefix_free (fuel : nat) :
  forall (x y : Z) (t t' : list byte),
    0 <= x < 2 ^ (7 * Z.of_nat fuel) -> 0 <= y < 2 ^ (7 * Z.of_nat fuel) ->
    uvarint_bytes fuel x ++ t = uvarint_bytes fuel y ++ t' -> x = y.
Proof.
  induction fuel as [|fuel IH]; intros x y t t' Hx Hy E.
  - change (2 ^ (7 * Z.of_nat 0)) with 1 in *. lia.
  - cbn [uvarint_bytes] in E.
    destruct (128 <=? x) eqn:Ex; destruct (128 <=? y) eqn:Ey;
      cbn [app] in E; injection E as Eb Et;
      apply (f_equal Z_of_byte) in Eb; rewrite !Z_of_byte_of_Z in Eb.
    + apply Z.leb_le in Ex, Ey.
      assert (Hq : Z.shiftr x 7 = Z.shiftr y 7).
      { apply (IH _ _ t t'); [| |exact Et].
        - split; [apply Z.shiftr_nonneg; lia|apply shiftr7_lt; lia].
        - split; [apply Z.shiftr_nonneg; lia|apply shiftr7_lt; lia]. }
      apply (f_equal (fun v => Z.land v 127)) in Eb.
      rewrite !continuation_low7 in Eb.
      rewrite !Z.shiftr_div_pow2 in Hq by lia. change (2 ^ 7) with 128 in Hq.
      rewrite (Z.div_mod x 128), (Z.div_mod y 128) by lia. congruence.
    + apply Z.leb_gt in Ey.
      apply (f_equal (fun v => Z.testbit v 7)) in Eb.
      rewrite continuation_bit7, final_bit7 in Eb by lia. discriminate Eb.
    + apply Z.leb_gt in Ex.
      apply (f_equal (fun v => Z.testbit v 7)) in Eb.
      rewrite continuation_bit7, final_bit7 in Eb by lia. discriminate Eb.
    + apply Z.leb_gt in Ex, Ey. rewrite !land_255_small in Eb by lia. exact Eb.
Qed.

Lemma embed_injective_size (x y : Z) (d d' : list byte) :
  0 <= x <= MaxInt64 -> 0 <= y <= MaxInt64 -> embed x d = embed y d' -> x = y.
Proof.
  intros Hx Hy E. unfold embed, uvarint in E.
  apply (uvarint_bytes_prefix_free MaxVarintLen64 x y _ _) in E; [exact E| |];
    unfold MaxVarintLen64, MaxInt64 in *;
    change (2 ^ (7 * Z.of_nat 10)) with (2 ^ 63 * 128); lia.
Qed.

(** X1.  Two one-shot computations that return, over sources of
    different sizes, never return the same identifier, whatever the
    contents, the readers, and the engines that hash them. *)
Theorem size_discrimination :
  forall (H : Hash128) (imo imo' : ImoHash H) (r r' : ReaderAt) (n n' : Z)
         (i i' : ImoHash H) (f f' : SectionReader.t) (id id' : list byte),
    0 <= n <= MaxInt64 -> 0 <= n' <= MaxInt64 -> n <> n' ->
    hashCore imo (NewSectionReader r 0 n) = Ok (i, f, id) ->
    hashCore imo' (NewSectionReader r' 0 n') = Ok (i', f', id') ->
    id <> id'.
Proof.
  intros H imo imo' r r' n n' i i' f f' id id' Hn Hn' Hne E E'.
  pose proof (hashCore_Ok_fits H imo _ _ E) as HA.
  pose proof (hashCore_Ok_fits H imo' _ _ E') as HA'.
  destruct (hashCore_shape imo (NewSectionReader r 0 n)) as (ws & g & F & _);
    [rewrite NewSectionReader_Size by exact Hn; lia|exact HA|].
  destruct (hashCore_shape imo' (NewSectionReader r' 0 n')) as (ws' & g' & F' & _);
    [rewrite NewSectionReader_Size by exact Hn'; lia|exact HA'|].
  rewrite NewSectionReader_Size, uint64_id in F by lia.
  rewrite NewSectionReader_Size, uint64_id in F' by lia.
  rewrite E in F. rewrite E' in F'.
  injection F as _ _ ->. injection F' as _ _ ->.
  intros Heq. apply Hne. exact (embed_injective_size n n' _ _ Hn Hn' Heq).
Qed.

(** X1 at work: two and three zero bytes. *)
Lemma size_discrimination_witness :
  embed 2 (checksum128 [x00; x00]) <> embed 3 (checksum128 [x00; x00; x00]).
Proof.
  exact (size_discrimination Recorder New New
           (bytes_NewReader [x00; x00]) (bytes_NewReader [x00; x00; x00]) 2 3
           _ _ _ _ _ _
           ltac:(vm_compute; split; discriminate)
           ltac:(vm_compute; split; discriminate)
           ltac:(discriminate)
           (hashCore_whole (H := Recorder) New (bytes_NewReader [x00; x00])
              [x00; x00] (bytes_NewReader_serves _)
              ltac:(vm_compute; discriminate)
              ltac:(left; vm_compute; reflexivity))
           (hashCore_whole (H := Recorder) New (bytes_NewReader [x00; x00; x00])
              [x00; x00; x00] (bytes_NewReader_serves _)
              ltac:(vm_compute; discriminate)
              ltac:(left; vm_compute; reflexivity))).
Defined.

(** ** The sampling path without its guard *)

Lemma overwrite_keeps_length (B p : list byte) (off : Z) :
  length (overwrite B off p) = length p.
Proof.
  unfold overwrite, window, len. rewrite Nat2Z.id.
  rewrite length_app, length_skipn, length_firstn. lia.
Qed.

Lemma Read_serves_overwrite (r : ReaderAt) (B p : list byte) (off : Z) :
  serves r B -> len B <= MaxInt64 -> 0 <= off <= len B ->
  exists n err,
    SectionReader.Read (SectionReader.mk r 0 off (len B)) p =
    (SectionReader.mk r 0 (off + Z.min (len B - off) (len p)) (len B),
     overwrite B off p, n, err).
Proof.
  intros Hs HB Ho.
  destruct (Read_serves r B p off Hs HB Ho) as (n & err & E).
  exists n, err. rewrite E. f_equal. f_equal. f_equal.
  pose proof (len_nonneg p) as Hp.
  assert (Hl : len (skipn (Z.to_nat off) B) = len B - off)
    by (unfold len; rewrite length_skipn; unfold len in Ho; lia).
  unfold overwrite, window.
  destruct (Z.le_gt_cases (len p) (len B - off)) as [Hle|Hgt].
  - rewrite Z.min_r by lia.
    rewrite length_firstn. unfold len in *. f_equal. f_equal. lia.
  - rewrite Z.min_l by lia.
    rewrite (firstn_all2 (n := Z.to_nat (len p))) by (unfold len in *; lia).
    rewrite (firstn_all2 (n := Z.to_nat (len B - off))) by (unfold len in *; lia).
    f_equal. f_equal. unfold len in *. lia.
Qed.

Lemma overwrite_at_end (B p : list byte) : overwrite B (len B) p = p.
Proof.
  unfold overwrite, window, len. rewrite !Nat2Z.id, skipn_all, firstn_nil.
  reflexivity.
Qed.

Lemma Seek_end_fails (r : ReaderAt) (off limit n : Z) :
  0 <= limit < n -> n <= MaxInt64 ->
  SectionReader.Seek (SectionReader.mk r 0 off limit) (int64 (- n)) 2 =
  (SectionReader.mk r 0 off limit, 0, Some errOffset).
Proof.
  intros Hn Hl. unfold SectionReader.Seek.
  cbn [SectionReader.limit SectionReader.off SectionReader.base SectionReader.r].
  change (2 =? 0) with false. change (2 =? 1) with false.
  change (2 =? 2) with true. cbv iota.
  rewrite (int64_id (- n)) by (unfold MinInt64, MaxInt64 in *; lia).
  rewrite (int64_id (- n + limit)) by (unfold MinInt64, MaxInt64 in *; lia).
  destruct (- n + limit <? 0) eqn:E; [reflexivity|apply Z.ltb_ge in E; lia].
Qed.

(** The sampling path on any source that is served, window by window. *)
Lemma sampling_path_unguarded_aux (H : Hash128) (imo : ImoHash H)
  (r : ReaderAt) (B : list byte) :
  serves r B -> len B <= MaxInt64 ->
  sampleThreshold imo <= len B -> 1 <= sampleSize imo <= maxAlloc ->
  let ss := sampleSize imo in
  let b1 := overwrite B 0 (repeat x00 (Z.to_nat ss)) in
  let b2 := overwrite B (len B / 2) b1 in
  let b3 := if ss <=? len B then overwrite B (len B - ss) b2 else b2 in
  let h := hWrite (hWrite (hWrite New128 b1) b2) b3 in
  hashCore imo (NewSectionReader r 0 (len B)) =
  Ok (with_hasher imo h, SectionReader.mk r 0 (len B) (len B),
      embed (len B) (raw_digest h)).
Proof.
  intros Hs HB Hst HssA ss b1 b2 b3 h.
  assert (Hss : 1 <= sampleSize imo <= MaxInt64)
    by (pose proof maxAlloc_int64; lia).
  pose proof (len_nonneg B) as H0.
  assert (Hq : len B ÷ 2 = len B / 2) by (apply Z.quot_div_nonneg; lia).
  assert (Hhalf : 0 <= len B / 2 <= len B).
  { pose proof (Z.mul_div_le (len B) 2 ltac:(lia)).
    pose proof (Z.div_pos (len B) 2 ltac:(lia) ltac:(lia)). lia. }
  assert (Hhalf' : len B < 2 * (len B / 2) + 2).
  { pose proof (Z.mul_succ_div_gt (len B) 2 ltac:(lia)). lia. }
  assert (Hz : len (repeat x00 (Z.to_nat ss)) = ss)
    by (apply len_repeat; unfold ss; lia).
  assert (L1 : len b1 = ss).
  { unfold len, b1. rewrite overwrite_keeps_length. exact Hz. }
  assert (L2 : len b2 = ss).
  { unfold len, b2. rewrite overwrite_keeps_length. exact L1. }
  rewrite NewSectionReader_eq by lia.
  unfold hashCore. rewrite hReset_New128, Size_mk by lia.
  replace ((len B <? sampleThreshold imo) || (sampleSize imo <? 1)) with false
    by (symmetry; apply orb_false_iff; rewrite !Z.ltb_ge; lia).
  rewrite make_ok by lia. fold ss.
  cbn [bind].
  destruct (Read_serves_overwrite r B (repeat x00 (Z.to_nat ss)) 0 Hs HB
              ltac:(lia)) as (n1 & e1 & ->).
  fold b1. rewrite Size_mk, Hq by lia.
  match goal with
  | |- context [SectionReader.Seek (SectionReader.mk r 0 ?o ?l) _ 0] =>
      destruct (Seek_start r o l (len B / 2)
                  ltac:(unfold MaxInt64 in *; lia)) as (p2 & ->)
  end.
  destruct (Read_serves_overwrite r B b1 (len B / 2) Hs HB Hhalf)
    as (n3 & e3 & ->).
  fold b2. rewrite L1.
  destruct (ss <=? len B) eqn:Ess.
  - apply Z.leb_le in Ess.
    match goal with
    | |- context [SectionReader.Seek (SectionReader.mk r 0 ?o ?l) _ 2] =>
        destruct (Seek_end r o l ss ltac:(unfold ss in *; lia) HB) as (p4 & ->)
    end.
    destruct (Read_serves_overwrite r B b2 (len B - ss) Hs HB
                ltac:(unfold ss in *; lia)) as (n5 & e5 & ->).
    rewrite L2. cbn [bind]. rewrite Size_mk by lia.
    replace (len B - ss + Z.min (len B - (len B - ss)) ss) with (len B) by lia.
    rewrite (finish_ok _ (len B) _
               (fun h' hash' => (with_hasher imo h',
                  SectionReader.mk r 0 (len B) (len B),
                  copy (repeat x00 (Z.to_nat Size)) hash'))).
    rewrite copy_result, uint64_id by lia. reflexivity.
  - apply Z.leb_gt in Ess.
    replace (len B / 2 + Z.min (len B - len B / 2) ss) with (len B) by lia.
    rewrite (Seek_end_fails r (len B) (len B) ss)
      by (unfold ss in *; lia).
    destruct (Read_serves_overwrite r B b2 (len B) Hs HB ltac:(lia))
      as (n5 & e5 & ->).
    rewrite overwrite_at_end. cbn [bind]. rewrite Size_mk by lia.
    replace (len B + Z.min (len B - len B) (len b2)) with (len B) by lia.
    rewrite (finish_ok _ (len B) _
               (fun h' hash' => (with_hasher imo h',
                  SectionReader.mk r 0 (len B) (len B),
                  copy (repeat x00 (Z.to_nat Size)) hash'))).
    rewrite copy_result, uint64_id by lia. reflexivity.
Qed.

(** X2.  The sampling path as the code runs it on any source of size
    [S >= sampleThreshold], with [sampleSize] within the allocation limit
    and no guard on the windows: each read is
    clipped to the end of the source and overwrites only the front of the
    one buffer, which is then written whole; and when [sampleSize > S] the
    seek from the end fails, the third read finds the reader at the end,
    and the buffer of the second write is written again. *)
Theorem sampling_path_unguarded :
  forall (H : Hash128) (imo : ImoHash H) (r : ReaderAt) (B : list byte),
    serves r B -> len B <= MaxInt64 ->
    sampleThreshold imo <= len B -> 1 <= sampleSize imo <= maxAlloc ->
    let ss := sampleSize imo in
    let b1 := overwrite B 0 (repeat x00 (Z.to_nat ss)) in
    let b2 := overwrite B (len B / 2) b1 in
    let b3 := if ss <=? len B then overwrite B (len B - ss) b2 else b2 in
    let h := hWrite (hWrite (hWrite New128 b1) b2) b3 in
    hashCore imo (NewSectionReader r 0 (len B)) =
      Ok (with_hasher imo h, SectionReader.mk r 0 (len B) (len B),
          embed (len B) (raw_digest h))
    /\ len b1 = ss /\ len b2 = ss /\ len b3 = ss.
Proof.
  intros H imo r B Hs HB Hst Hss ss b1 b2 b3 h.
  split; [exact (sampling_path_unguarded_aux H imo r B Hs HB Hst Hss)|].
  assert (L1 : len b1 = ss).
  { unfold len, b1. rewrite overwrite_keeps_length.
    apply len_repeat. unfold ss. lia. }
  assert (L2 : len b2 = ss).
  { unfold len, b2. rewrite overwrite_keeps_length. exact L1. }
  repeat split; [exact L1|exact L2|].
  unfold b3. destruct (ss <=? len B); [|exact L2].
  unfold len. rewrite overwrite_keeps_length. exact L2.
Qed.

Lemma sampling_path_unguarded_witness :
  final_hasher
    (hashCore (H := Recorder) (NewCustom 4 0)
       (NewSectionReader (bytes_NewReader [x01; x02]) 0 (len [x01; x02])))
  = Some [[x01; x02; x00; x00]; [x02; x02; x00; x00]; [x02; x02; x00; x00]].
Proof.
  rewrite (proj1 (sampling_path_unguarded Recorder (NewCustom 4 0)
                    (bytes_NewReader [x01; x02]) [x01; x02]
                    (bytes_NewReader_serves [x01; x02])
                    ltac:(vm_compute; discriminate)
                    ltac:(vm_compute; discriminate)
                    ltac:(vm_compute; split; discriminate))).
  vm_compute. reflexivity.
Defined.

(** ** Files and buffers *)

(** On a source that serves [B] the run depends on the reader only through
    [B]. *)
Lemma hashCore_reader_independent (H : Hash128) (imo : ImoHash H)
  (r1 r2 : ReaderAt) (B : list byte) :
  serves r1 B -> serves r2 B -> len B <= maxAlloc ->
  sampleSize imo <= maxAlloc ->
  exists h,
    hashCore imo (NewSectionReader r1 0 (len B)) =
      Ok (with_hasher imo h, SectionReader.mk r1 0 (len B) (len B),
          embed (len B) (raw_digest h))
    /\ hashCore imo (NewSectionReader r2 0 (len B)) =
      Ok (with_hasher imo h, SectionReader.mk r2 0 (len B) (len B),
          embed (len B) (raw_digest h)).
Proof.
  intros Hs1 Hs2 HA Hss.
  assert (HB : len B <= MaxInt64) by (pose proof maxAlloc_int64; lia).
  destruct (Z.lt_ge_cases (len B) (sampleThreshold imo)) as [Hlt|Hge].
  - eexists. split; apply hashCore_whole; auto.
  - destruct (Z.lt_ge_cases (sampleSize imo) 1) as [Hlt|Hge'].
    + eexists. split; apply hashCore_whole; auto.
    + eexists. split.
      * apply (sampling_path_unguarded_aux H imo r1 B Hs1 HB Hge (conj Hge' Hss)).
      * apply (sampling_path_unguarded_aux H imo r2 B Hs2 HB Hge (conj Hge' Hss)).
Qed.

(** Two engines with the same parameters give the same identifier. *)
Lemma hashCore_same_config (H : Hash128) (imo1 imo2 : ImoHash H)
  (f : SectionReader.t) :
  sampleSize imo1 = sampleSize imo2 ->
  sampleThreshold imo1 = sampleThreshold imo2 ->
  identifier (hashCore imo1 f) = identifier (hashCore imo2 f).
Proof.
  intros Hss Hst. rewrite (hashCore_config imo1), (hashCore_config imo2).
  rewrite Hss, Hst. destruct (hashCore _ f) as [[[i f'] id]|]; reflexivity.
Qed.

Lemma Sum128_identifier (H : Hash128) (data id : list byte) :
  identifier (hashCore New (NewSectionReader (bytes_NewReader data) 0 (len data)))
  = Some id ->
  Sum128 data = Ok id.
Proof.
  unfold Sum128. destruct (hashCore New _) as [[[i f'] id']|]; [|discriminate].
  cbn [identifier bind]. now intros [= ->].
Qed.

(** X3.  Hashing a file that reads without failure gives the identifier
    of its content hashed as a buffer with the same parameters; with the
    default parameters, the identifier that [Sum128] gives the content.
    The content, held in memory as a buffer, and [sampleSize] are within
    the allocation limit. *)
Theorem SumFile_agrees_with_buffer :
  forall (H : Hash128) (fs : FileSystem) (imo : ImoHash H) (filename : string)
         (f : File) (B : list byte),
    fs filename = inl f -> Stat f = inl (len B) ->
    serves (FileReaderAt f) B -> len B <= maxAlloc ->
    sampleSize imo <= maxAlloc ->
    exists imo' id,
      ImoHash_SumFile fs imo filename = Ok (imo', (id, None))
      /\ identifier (hashCore imo (NewSectionReader (bytes_NewReader B) 0 (len B)))
         = Some id
      /\ (sampleSize imo = SampleSize -> sampleThreshold imo = SampleThreshhold ->
          Sum128 B = Ok id /\ SumFile fs filename = Ok (id, None)).
Proof.
  intros H fs imo filename f B Hopen Hstat Hs HB Hss.
  destruct (hashCore_reader_independent H imo (FileReaderAt f) (bytes_NewReader B)
              B Hs (bytes_NewReader_serves B) HB Hss) as (h & E1 & E2).
  eexists _, _. unfold ImoHash_SumFile. rewrite Hopen, Hstat, E1. cbn [bind].
  split; [reflexivity|]. split; [rewrite E2; reflexivity|].
  intros Hd1 Hd2.
  assert (Hnew : forall r,
    identifier (hashCore New (NewSectionReader r 0 (len B)))
    = identifier (hashCore imo (NewSectionReader r 0 (len B))))
    by (intros r; apply hashCore_same_config; rewrite ?Hd1, ?Hd2; reflexivity).
  split.
  - apply Sum128_identifier. rewrite Hnew, E2. reflexivity.
  - unfold SumFile, ImoHash_SumFile. rewrite Hopen, Hstat.
    specialize (Hnew (FileReaderAt f)). rewrite E1 in Hnew.
    destruct (hashCore New _) as [[[i f'] id]|]; [|discriminate Hnew].
    cbn [identifier] in Hnew. injection Hnew as ->. reflexivity.
Qed.

Lemma SumFile_agrees_with_buffer_witness :
  exists id,
    SumFile (H := Recorder) nineBytesFS "nine.bin" = Ok (id, None)
    /\ Sum128 (H := Recorder) (ramp 1 9) = Ok id.
Proof.
  destruct (SumFile_agrees_with_buffer Recorder nineBytesFS New "nine.bin"
              {| Stat := inl 9; FileReaderAt := bytes_NewReader (ramp 1 9) |}
              (ramp 1 9) eq_refl eq_refl (bytes_NewReader_serves (ramp 1 9))
              ltac:(vm_compute; discriminate) ltac:(vm_compute; discriminate))
    as (imo' & id & _ & _ & Hd).
  exists id. destruct (Hd eq_refl eq_refl) as [E1 E2]. now split.
Defined.

(** ** The incremental mode *)

Lemma int64_add_int64 (a c : Z) : int64 (int64 a + c) = int64 (a + c).
Proof.
  unfold int64.
  replace ((a + 2 ^ 63) mod 2 ^ 64 - 2 ^ 63 + c + 2 ^ 63)
    with ((a + 2 ^ 63) mod 2 ^ 64 + (c + 0)) by lia.
  rewrite Z.add_mod_idemp_l by lia.
  do 2 f_equal. lia.
Qed.

Lemma uint64_int64 (z : Z) : uint64 (int64 z) = uint64 z.
Proof.
  unfold uint64, int64. rewrite Zminus_mod_idemp_l. f_equal. lia.
Qed.

Lemma len_concat_cons (c : list byte) (cs : list (list byte)) :
  len (concat (c :: cs)) = len c + len (concat cs).
Proof. cbn [concat]. apply len_app. Qed.

(** A run of [Write] calls, in closed form. *)
Lemma Write_each_eq (H : Hash128) (chunks : list (list byte)) :
  forall imo : ImoHash H,
    MinInt64 <= bytesAdded imo <= MaxInt64 ->
    Write_each imo chunks =
    (mkImoHash (fold_left hWrite chunks (hasher imo))
       (sampleSize imo) (sampleThreshold imo)
       (int64 (bytesAdded imo + len (concat chunks))),
     map (fun c => (len c, None)) chunks).
Proof.
  induction chunks as [|c cs IH]; intros imo Hb.
  - cbn [Write_each fold_left concat map]. unfold len. cbn [length].
    rewrite Z.add_0_r, int64_id by exact Hb. now destruct imo.
  - cbn [Write_each]. unfold ImoHash_Write.
    rewrite IH by (cbn [bytesAdded]; apply int64_range).
    cbn [hasher sampleSize sampleThreshold bytesAdded fold_left map].
    rewrite int64_add_int64, len_concat_cons, Z.add_assoc. reflexivity.
Qed.

Lemma Write_each_parameters (H : Hash128) (chunks : list (list byte)) :
  forall imo : ImoHash H,
    sampleSize (fst (Write_each imo chunks)) = sampleSize imo
    /\ sampleThreshold (fst (Write_each imo chunks)) = sampleThreshold imo.
Proof.
  induction chunks as [|c cs IH]; intros imo; [now split|].
  cbn [Write_each]. unfold ImoHash_Write.
  specialize (IH (mkImoHash (hWrite (hasher imo) c) (sampleSize imo)
                    (sampleThreshold imo) (int64 (bytesAdded imo + len c)))).
  destruct (Write_each _ cs) as [imo2 outs]. exact IH.
Qed.

(** X4.  Any run of [Write] calls accepts every chunk whole with a nil
    error, mixes the chunks in the order given, leaves the parameters as
    they were, and adds the lengths to [bytesAdded] with 64-bit
    wrap-around; the [Sum] that follows embeds the total count modulo
    [2^64] in the digest of the primitive after those writes. *)
Theorem Write_accumulates :
  forall (H : Hash128) (imo : ImoHash H) (chunks : list (list byte)),
    MinInt64 <= bytesAdded imo <= MaxInt64 ->
    let total := bytesAdded imo + len (concat chunks) in
    let h := fold_left hWrite chunks (hasher imo) in
    let imo' := mkImoHash h (sampleSize imo) (sampleThreshold imo) (int64 total) in
    Write_each imo chunks = (imo', map (fun c => (len c, None)) chunks)
    /\ forall prefix,
         ImoHash_Sum imo' prefix =
         Ok (imo', prefix ++ embed (uint64 total) (raw_digest h)).
Proof.
  intros H imo chunks Hb total h imo'. split.
  - apply Write_each_eq. exact Hb.
  - intros prefix. rewrite ImoHash_Sum_eq. unfold imo'.
    cbn [hasher bytesAdded]. now rewrite uint64_int64.
Qed.

Lemma Write_accumulates_witness :
  hasher (fst (Write_each (H := Recorder) New [[x01; x02]; []; [x03]]))
  = [[x01; x02]; []; [x03]]
  /\ bytesAdded (fst (Write_each (H := Recorder) New [[x01; x02]; []; [x03]])) = 3
  /\ snd (Write_each (H := Recorder) New [[x01; x02]; []; [x03]])
     = [(2, None); (0, None); (1, None)].
Proof.
  rewrite (proj1 (Write_accumulates Recorder New [[x01; x02]; []; [x03]]
                    ltac:(vm_compute; split; discriminate))).
  cbn [fst snd hasher bytesAdded]. repeat split; vm_compute; reflexivity.
Defined.

(** X5.  [Reset] gives back the state of a new engine with the same
    parameters, whatever was written before: the counter is zero, the
    primitive is as new, and [Sum] returns the digest of a new primitive
    with a zero count embedded. *)
Theorem Reset_forgets_writes :
  forall (H : Hash128) (imo : ImoHash H) (chunks : list (list byte)),
    let fresh := NewCustom (sampleSize imo) (sampleThreshold imo) in
    ImoHash_Reset (fst (Write_each imo chunks)) = fresh
    /\ forall prefix,
         ImoHash_Sum (ImoHash_Reset (fst (Write_each imo chunks))) prefix
         = Ok (fresh, prefix ++ embed 0 (raw_digest New128)).
Proof.
  intros H imo chunks fresh.
  assert (E : ImoHash_Reset (fst (Write_each imo chunks)) = fresh).
  { unfold ImoHash_Reset, fresh, NewCustom.
    destruct (Write_each_parameters H chunks imo) as [-> ->].
    now rewrite hReset_New128. }
  split; [exact E|].
  intros prefix. rewrite E, ImoHash_Sum_eq. reflexivity.
Qed.

Lemma fold_left_hWrite_stream (H : Hash128) :
  (forall d a b, hWrite (hWrite d a) b = hWrite d (a ++ b)) ->
  (forall d, hWrite d [] = d) ->
  forall chunks d, fold_left hWrite chunks d = hWrite d (concat chunks).
Proof.
  intros Hstream Hnil chunks.
  induction chunks as [|c cs IH]; intros d; cbn [fold_left concat].
  - now rewrite Hnil.
  - now rewrite IH, Hstream.
Qed.

(** X6.  When the primitive is stream-equivalent (two writes in a row are
    one write of the two chunks joined, and an empty write changes
    nothing), feeding a buffer shorter than [SampleThreshhold] to a reset
    engine in any number of chunks and calling [Sum(nil)] gives the
    identifier that [Sum128] gives the whole buffer. *)
Theorem chunked_writes_agree_with_Sum128 :
  forall (H : Hash128),
    (forall d a b, hWrite (hWrite d a) b = hWrite d (a ++ b)) ->
    (forall d, hWrite d [] = d) ->
    forall (imo0 : ImoHash H) (chunks : list (list byte)),
      len (concat chunks) < SampleThreshhold ->
      exists id,
        Sum128 (concat chunks) = Ok id
        /\ (let '(imo, _) := Write_each (ImoHash_Reset imo0) chunks in
            ImoHash_Sum imo [] = Ok (imo, id)).
Proof.
  intros H Hstream Hnil imo0 chunks Hlt.
  pose proof (len_nonneg (concat chunks)) as H0.
  assert (HB : len (concat chunks) <= MaxInt64)
    by (unfold SampleThreshhold, MaxInt64 in *; lia).
  assert (HA : len (concat chunks) <= maxAlloc)
    by (unfold SampleThreshhold, maxAlloc in *; lia).
  exists (embed (len (concat chunks)) (raw_digest (hWrite New128 (concat chunks)))).
  split.
  - unfold Sum128.
    rewrite (hashCore_whole New (bytes_NewReader (concat chunks)) (concat chunks)
               (bytes_NewReader_serves _) HA (or_introl Hlt)).
    reflexivity.
  - rewrite Write_each_eq
      by (cbn [ImoHash_Reset bytesAdded]; unfold MinInt64, MaxInt64; lia).
    rewrite ImoHash_Sum_eq. cbn [ImoHash_Reset hasher bytesAdded].
    rewrite hReset_New128, (fold_left_hWrite_stream H Hstream Hnil).
    rewrite uint64_int64, Z.add_0_l, uint64_id by lia. reflexivity.
Qed.

Lemma chunked_writes_witness :
  exists id,
    Sum128 (H := Streamer) (concat [[x01; x02]; []; [x03]]) = Ok id
    /\ (let '(imo, _) :=
          Write_each (H := Streamer) (ImoHash_Reset New) [[x01; x02]; []; [x03]] in
        ImoHash_Sum imo [] = Ok (imo, id)).
Proof.
  exact (chunked_writes_agree_with_Sum128 Streamer
           (fun d a b => eq_sym (app_assoc d a b)) (fun d => app_nil_r d)
           New [[x01; x02]; []; [x03]] ltac:(vm_compute; reflexivity)).
Defined.

(** X7.  [Size] is the number of bytes [Sum] appends, the length of the
    identifier of every one-shot run that returns (as it does when its
    buffer is within the allocation limit), and the length of the zero
    array that goes with an error. *)
Theorem Size_is_identifier_length :
  forall (H : Hash128) (imo : ImoHash H) (data : list byte)
         (r : ReaderAt) (n : Z),
    buffer_len (sampleSize imo) (sampleThreshold imo)
      (SectionReader.Size (NewSectionReader r 0 n)) <= maxAlloc ->
    exists out imo' f' id,
      ImoHash_Sum imo data = Ok (imo, out)
      /\ len out = len data + ImoHash_Size imo
      /\ hashCore imo (NewSectionReader r 0 n) = Ok (imo', f', id)
      /\ len id = ImoHash_Size imo'
      /\ len emptyArray = ImoHash_Size imo.
Proof.
  intros H imo data r n HA.
  destruct (hashCore_total H imo r n HA) as (imo' & f' & id & E & Hl).
  eexists _, imo', f', id. split; [apply ImoHash_Sum_eq|].
  split; [|split; [exact E|split]].
  - rewrite len_app. f_equal. unfold len.
    rewrite (embed_length _ _ (raw_digest_length (hasher imo))
               (uint64_range (bytesAdded imo))). reflexivity.
  - unfold len. rewrite Hl. reflexivity.
  - reflexivity.
Qed.

(** X7 at work: a prefix of two bytes, and the nine bytes [1..9]. *)
Lemma Size_is_identifier_length_witness :
  exists out imo' f' id,
    ImoHash_Sum (H := Recorder) New [x01; x02] = Ok (New (H := Recorder), out)
    /\ len out = len [x01; x02] + ImoHash_Size (H := Recorder) New
    /\ hashCore (H := Recorder) New
         (NewSectionReader (bytes_NewReader (ramp 1 9)) 0 9)
       = Ok (imo', f', id)
    /\ len id = ImoHash_Size imo'
    /\ len emptyArray = ImoHash_Size (H := Recorder) New.
Proof.
  exact (Size_is_identifier_length Recorder New [x01; x02]
           (bytes_NewReader (ramp 1 9)) 9 ltac:(vm_compute; discriminate)).
Defined.

(** ** Reads that deliver nothing *)

Lemma firstn_repeat_min (a : byte) (n m : nat) :
  firstn n (repeat a m) = repeat a (Nat.min n m).
Proof.
  revert m. induction n as [|n IH]; intros [|m]; cbn; try reflexivity.
  now rewrite IH.
Qed.

Lemma skipn_repeat_sub (a : byte) (n m : nat) :
  skipn n (repeat a m) = repeat a (m - n).
Proof.
  revert m. induction n as [|n IH]; intros [|m]; cbn; try reflexivity.
  apply IH.
Qed.

(** Reading zeros over zeros leaves zeros. *)
Lemma overwrite_zeros (a m : nat) (off : Z) :
  overwrite (repeat x00 a) off (repeat x00 m) = repeat x00 m.
Proof.
  unfold overwrite, window.
  rewrite skipn_repeat_sub, firstn_repeat_min, repeat_length, skipn_repeat_sub.
  rewrite <- repeat_app. f_equal. unfold len. rewrite repeat_length. lia.
Qed.

(** A read from a silent reader leaves the buffer as it was. *)
Lemma Read_silent (s : SectionReader.t) (p : list byte) :
  silent (SectionReader.r s) ->
  let '(_, p', _, _) := SectionReader.Read s p in p' = p.
Proof.
  intros Hs. unfold SectionReader.Read.
  destruct (SectionReader.limit s <=? SectionReader.off s); [reflexivity|].
  match goal with
  | |- context [ReadAt ?r ?k ?o] =>
      pose proof (Hs k o) as Hd; destruct (ReadAt r k o) as [data err]
  end.
  cbn [fst] in Hd. subst data. now rewrite firstn_nil.
Qed.

(** On a silent reader [hashCore] mixes the buffers as [make] left them. *)
Lemma hashCore_silent (H : Hash128) (imo : ImoHash H) (f : SectionReader.t) :
  silent (SectionReader.r f) -> 0 <= SectionReader.Size f ->
  buffer_len (sampleSize imo) (sampleThreshold imo) (SectionReader.Size f)
  <= maxAlloc ->
  let z := fun n => repeat x00 (Z.to_nat n) in
  let h := if (SectionReader.Size f <? sampleThreshold imo)
              || (sampleSize imo <? 1)
           then hWrite New128 (z (SectionReader.Size f))
           else hWrite (hWrite (hWrite New128 (z (sampleSize imo)))
                          (z (sampleSize imo))) (z (sampleSize imo)) in
  identifier (hashCore imo f)
  = Some (embed (uint64 (SectionReader.Size f)) (raw_digest h)).
Proof.
  intros Hs HS HA z h. unfold hashCore. rewrite hReset_New128. subst h.
  unfold buffer_len in HA.
  destruct ((SectionReader.Size f <? sampleThreshold imo) || (sampleSize imo <? 1))
    eqn:Hc.
  - rewrite make_ok by lia. cbn [bind].
    pose proof (Read_frame f (z (SectionReader.Size f))) as Hf.
    pose proof (Read_silent f (z (SectionReader.Size f)) Hs) as Hb.
    fold (z (SectionReader.Size f)).
    destruct (SectionReader.Read f _) as [[[f1 b1] n1] e1].
    destruct Hf as (Hr & Hbase & Hl & _). subst b1. cbn [bind].
    replace (SectionReader.Size f1) with (SectionReader.Size f)
      by (unfold SectionReader.Size; now rewrite Hbase, Hl).
    rewrite (finish_ok _ (SectionReader.Size f) _
               (fun h' hash' => (with_hasher imo h', f1,
                  copy (repeat x00 (Z.to_nat Size)) hash'))).
    rewrite copy_result. reflexivity.
  - apply orb_false_iff in Hc. destruct Hc as [_ Hss]. apply Z.ltb_ge in Hss.
    rewrite make_ok by lia. cbn [bind].
    fold (z (sampleSize imo)).
    pose proof (Read_frame f (z (sampleSize imo))) as Hf1.
    pose proof (Read_silent f (z (sampleSize imo)) Hs) as Hb1.
    destruct (SectionReader.Read f _) as [[[f1 b1] n1] e1].
    destruct Hf1 as (Hr1 & Hbase1 & Hl1 & _). subst b1.
    pose proof (Seek_frame f1 (SectionReader.Size f1 ÷ 2) 0) as Hf2.
    destruct (SectionReader.Seek f1 _ 0) as [[f2 p2] e2].
    destruct Hf2 as (Hr2 & Hbase2 & Hl2).
    pose proof (Read_frame f2 (z (sampleSize imo))) as Hf3.
    pose proof (Read_silent f2 (z (sampleSize imo))
                  ltac:(rewrite Hr2, Hr1; exact Hs)) as Hb3.
    destruct (SectionReader.Read f2 _) as [[[f3 b3] n3] e3].
    destruct Hf3 as (Hr3 & Hbase3 & Hl3 & _). subst b3.
    pose proof (Seek_frame f3 (int64 (- sampleSize imo)) 2) as Hf4.
    destruct (SectionReader.Seek f3 _ 2) as [[f4 p4] e4].
    destruct Hf4 as (Hr4 & Hbase4 & Hl4).
    pose proof (Read_frame f4 (z (sampleSize imo))) as Hf5.
    pose proof (Read_silent f4 (z (sampleSize imo))
                  ltac:(rewrite Hr4, Hr3, Hr2, Hr1; exact Hs)) as Hb5.
    destruct (SectionReader.Read f4 _) as [[[f5 b5] n5] e5].
    destruct Hf5 as (Hr5 & Hbase5 & Hl5 & _). subst b5. cbn [bind].
    replace (SectionReader.Size f5) with (SectionReader.Size f)
      by (unfold SectionReader.Size; congruence).
    rewrite (finish_ok _ (SectionReader.Size f) _
               (fun h' hash' => (with_hasher imo h', f5,
                  copy (repeat x00 (Z.to_nat Size)) hash'))).
    rewrite copy_result. reflexivity.
Qed.

(** X8.  A source whose reads deliver nothing (every read fails) is hashed
    like a source of the same size that holds only zero bytes: the buffers
    go to the primitive as [make] zeroed them, with no error.  (Beyond the
    allocation limit both runs panic in [make].) *)
Theorem failed_reads_hash_as_zeros :
  forall (H : Hash128) (imo : ImoHash H) (r : ReaderAt) (n : Z),
    silent r -> 0 <= n <= MaxInt64 -> sampleSize imo <= MaxInt64 ->
    identifier (hashCore imo (NewSectionReader r 0 n))
    = identifier
        (hashCore imo
           (NewSectionReader (bytes_NewReader (repeat x00 (Z.to_nat n))) 0 n)).
Proof.
  intros H imo r n Hs Hn Hss.
  set (B := repeat x00 (Z.to_nat n)).
  assert (HB : len B = n) by (apply len_repeat; lia).
  pose proof (NewSectionReader_Size r n Hn) as HS1.
  pose proof (NewSectionReader_Size (bytes_NewReader B) n Hn) as HS2.
  destruct (Z.le_gt_cases
              (buffer_len (sampleSize imo) (sampleThreshold imo) n) maxAlloc)
    as [HA|HA].
  - pose proof (hashCore_silent H imo (NewSectionReader r 0 n)) as E.
    rewrite HS1 in E.
    destruct (NewSectionReader_base r n) as (_ & _ & Hr). rewrite Hr in E.
    rewrite (E Hs ltac:(lia) HA), uint64_id by exact Hn. clear E.
    replace (NewSectionReader (bytes_NewReader B) 0 n)
      with (NewSectionReader (bytes_NewReader B) 0 (len B)) by (now rewrite HB).
    unfold buffer_len in HA.
    destruct ((n <? sampleThreshold imo) || (sampleSize imo <? 1)) eqn:Hc.
    + apply orb_true_iff in Hc. rewrite !Z.ltb_lt in Hc.
      rewrite (hashCore_whole imo (bytes_NewReader B) B (bytes_NewReader_serves B))
        by (rewrite ?HB; tauto || lia).
      cbn [identifier]. now rewrite HB.
    + apply orb_false_iff in Hc. rewrite !Z.ltb_ge in Hc. destruct Hc as [Hst Hss'].
      rewrite (sampling_path_unguarded_aux H imo (bytes_NewReader B) B
                 (bytes_NewReader_serves B))
        by (rewrite ?HB; lia).
      cbv zeta. cbn [identifier]. rewrite HB. unfold B.
      rewrite !overwrite_zeros.
      destruct (sampleSize imo <=? n); now rewrite ?overwrite_zeros.
  - rewrite !hashCore_panics by (rewrite ?HS1, ?HS2; exact HA). reflexivity.
Qed.

Lemma failed_reads_hash_as_zeros_witness :
  identifier (hashCore (H := Recorder) New (NewSectionReader failingReader 0 4))
  = identifier
      (hashCore (H := Recorder) New
         (NewSectionReader (bytes_NewReader (repeat x00 (Z.to_nat 4))) 0 4)).
Proof.
  exact (failed_reads_hash_as_zeros Recorder New failingReader 4
           (fun _ _ => eq_refl)
           ltac:(vm_compute; split; discriminate)
           ltac:(vm_compute; discriminate)).
Defined.
